(** * The hierarchical registry of js/core/src/registry.ts

    A shallow embedding of the registry: the [Registry] objects with their
    tables on a heap, the tables as JavaScript objects read with [o[k]],
    the memoising closures of plugin bindings, the promises of providers,
    the [async] methods as computations with explicit suspension points,
    and the scope manager built on [AsyncLocalStorage]; then the
    properties of the specification, proved for a call that runs alone
    ([run]) or for every interleaving of calls ([exec]).

    What is taken from the surroundings:
    - the tables are plain objects ([{}]): [o[k]] finds the own property
      under [k] and otherwise what [Object.prototype] has under [k], and an
      assignment to [o["__proto__"]] replaces the prototype of [o]; what an
      object inherits from a client's value that has replaced its prototype
      is not modelled ([Unmodelled]);
    - actions, providers, schema entries, stores and promises are objects,
      as their types say, hence truthy;
    - a store provider ([AsyncProvider<T>]) returns a promise or throws; a
      plugin initialiser returns a promise or any other value, or throws;
      what client code does to the registry is to register things through
      the exported functions, and a promise it has returned settles at
      some point. *)

From Stdlib Require Import Ascii String NArith.
From stdpp Require Import base option list gmap strings sorting.

Open Scope string_scope.
Open Scope list_scope.
Set Warnings "-register-all".

(** ** Values the registry treats as opaque *)

(** Objects produced outside the registry (a trace store, a flow-state
    store, what a plugin initialiser resolves to) are identified by a
    number. *)
Definition Value := nat.

(** What is thrown, and what a promise is rejected with: the [TypeError]
    of a call of something that is no function, or a value of client
    code. *)
Inductive Error :=
| TypeError
| Raised (e : nat).

(** A settled promise, or the completion of an asynchronous function. *)
Inductive Result (A : Type) : Type :=
| Resolved (a : A)
| Rejected (e : Error).
Arguments Resolved {A} a.
Arguments Rejected {A} e.

(** [ActionType]: the closed union of action kinds. *)
Inductive ActionType :=
| custom | retriever | indexer | embedder | evaluator | flow | model
| prompt | tool.

Definition ActionType_string (t : ActionType) : string :=
  match t with
  | custom => "custom" | retriever => "retriever" | indexer => "indexer"
  | embedder => "embedder" | evaluator => "evaluator" | flow => "flow"
  | model => "model" | prompt => "prompt" | tool => "tool"
  end.

(** An action: [__action.name] and the identity of the callable. *)
Record Action := mkAction { action_name : string; action_fn : nat }.

(** A schema entry [{ schema?, jsonSchema? }]; neither field is checked. *)
Record SchemaData := mkSchemaData { schema : option nat; jsonSchema : option nat }.

(** A registry object: the address of its tables and its [parent], fixed by
    the constructor.  The chain is acyclic by construction. *)
Inductive Registry := mkRegistry (addr : nat) (parent : option Registry).

Definition addr (r : Registry) : nat := let 'mkRegistry a _ := r in a.
Definition parent (r : Registry) : option Registry := let 'mkRegistry _ p := r in p.

(** ** Code supplied by the registry's clients

    A store provider and a plugin's [initializer] are zero-argument
    functions written by clients.  What such a function does to the
    registry is to register things on the registry current when it runs.

    A store provider is an [AsyncProvider<T> = () => Promise<T>]: after
    the registrations [prov_sync] it returns a promise, behind which the
    registrations [prov_async] are made before it settles as
    [prov_result]; or it throws.

    The type of a plugin's [initializer] is declared in plugin.js;
    registry.ts calls it and keeps what it returns, whatever that is: the
    initialiser is a function like a store provider, or one that returns,
    after the registrations [init_sync], a value that is no promise. *)
Inductive Plain :=
| PlainUndefined
| PlainFalsy (v : Value)     (* null, 0, the empty string, ... *)
| PlainTruthy (v : Value).

Inductive RegOp :=
| RegisterAction (type : ActionType) (action : Action)
| RegisterTraceStore (env : string) (traceStoreProvider : AsyncProvider)
| RegisterFlowStateStore (env : string) (flowStateStoreProvider : AsyncProvider)
| RegisterPluginProvider (name : string) (provider : PluginProvider)
| RegisterSchema (name : string) (data : SchemaData)
with AsyncProvider :=
| mkProvider (prov_sync prov_async : list RegOp) (prov_result : Result Value)
| mkThrowingProvider (prov_sync : list RegOp) (prov_error : Error)
with PluginProvider :=
| mkPluginProvider (plugin_name : string) (plugin_initializer : Initializer)
with Initializer :=
| AsyncInitializer (fn : AsyncProvider)
| SyncInitializer (init_sync : list RegOp) (returned : Plain).

Definition prov_sync (p : AsyncProvider) : list RegOp :=
  match p with
  | mkProvider sync _ _ => sync
  | mkThrowingProvider sync _ => sync
  end.
Definition plugin_name (p : PluginProvider) := let 'mkPluginProvider n _ := p in n.
Definition plugin_initializer (p : PluginProvider) := let 'mkPluginProvider _ i := p in i.

(** Every registration a client function makes, before and after it
    returns. *)
Definition prov_ops (p : AsyncProvider) : list RegOp :=
  match p with
  | mkProvider sync async _ => sync ++ async
  | mkThrowingProvider sync _ => sync
  end.
Definition init_ops (i : Initializer) : list RegOp :=
  match i with
  | AsyncInitializer fn => prov_ops fn
  | SyncInitializer sync _ => sync
  end.

(** The registrations an initialiser makes before it returns. *)
Definition init_sync_ops (i : Initializer) : list RegOp :=
  match i with
  | AsyncInitializer fn => prov_sync fn
  | SyncInitializer sync _ => sync
  end.

(** ** JavaScript objects used as tables

    What [o[k]] evaluates to: [undefined], the own property of [o] under
    [k], or the property [Object.prototype] has under [k] (a function, and
    for [__proto__] the prototype object itself). *)
Inductive Property (V : Type) : Type :=
| Undefined
| Own (v : V)
| Inherited (name : string).
Arguments Undefined {V}.
Arguments Own {V} v.
Arguments Inherited {V} name.

Module JsObject.

(** [Object.getOwnPropertyNames(Object.prototype)] *)
Definition ObjectPrototype : list string :=
  ["constructor"; "__defineGetter__"; "__defineSetter__"; "hasOwnProperty";
   "__lookupGetter__"; "__lookupSetter__"; "isPrototypeOf";
   "propertyIsEnumerable"; "toString"; "valueOf"; "__proto__"; "toLocaleString"].

Definition inherited (k : string) : bool := bool_decide (k ∈ ObjectPrototype).

Section JsObject.
Context {V : Type}.

(** An own property is found first. *)
Definition property (own : option V) (k : string) : Property V :=
  match own with
  | Some v => Own v
  | None => if inherited k then Inherited k else Undefined
  end.

(** Truthiness: the values in the tables and the properties of
    [Object.prototype] are objects. *)
Definition truthy (p : Property V) : bool :=
  match p with
  | Undefined => false
  | _ => true
  end.

(** An object is represented by the map of its own properties.

    [o[k]] for an object whose prototype is [Object.prototype]. *)
Definition get (o : gmap string V) (k : string) : Property V :=
  property (o !! k) k.

(** [o[k]] for an object that clients assign to under names of their
    choice.  [o["__proto__"] = v] does not make an own property: it makes
    the object [v] the prototype of [o], and [o["__proto__"]] is [v] from
    then on.  The map keeps such a [v] under ["__proto__"]; what [o] then
    inherits from [v] under another name depends on the properties of a
    client's value: [None], not modelled. *)
Definition get_client (o : gmap string V) (k : string) : option (Property V) :=
  match o !! k, o !! "__proto__" with
  | None, Some _ => None
  | own, _ => Some (property own k)
  end.

(** *** Objects whose key order is observed

    [pluginsByName] is enumerated with [Object.keys], so it keeps its own
    properties in insertion order. *)
Definition own (o : list (string * V)) (k : string) : option V :=
  snd <$> find (λ kv, bool_decide (kv.1 = k)) o.

(** [o[k] = v]: an existing property keeps its place. *)
Fixpoint set (k : string) (v : V) (o : list (string * V)) : list (string * V) :=
  match o with
  | [] => [(k, v)]
  | (k', v') :: o' => if bool_decide (k' = k) then (k, v) :: o' else (k', v') :: set k v o'
  end.

(** [o[k]], with ["__proto__"] as in [get_client]. *)
Definition get_ordered (o : list (string * V)) (k : string) : option (Property V) :=
  match own o k, own o "__proto__" with
  | None, Some _ => None
  | found, _ => Some (property found k)
  end.

Definition digit (a : ascii) : option N :=
  let n := N_of_ascii a in
  if ((48 <=? n) && (n <=? 57))%N then Some (n - 48)%N else None.

Fixpoint digits (s : string) (acc : N) : option N :=
  match s with
  | EmptyString => Some acc
  | String a s' =>
      match digit a with
      | Some d => digits s' (10 * acc + d)%N
      | None => None
      end
  end.

(** A key is an array index when it is the canonical decimal form of an
    integer below 2^32 - 1. *)
Definition array_index (s : string) : option N :=
  match s with
  | EmptyString => None
  | String "0" EmptyString => Some 0%N
  | String "0" _ => None
  | _ => match digits s 0 with
         | Some n => if (n <? 4294967295)%N then Some n else None
         | None => None
         end
  end.

Definition index_keys (ks : list string) : list (N * string) :=
  omap (λ k, (λ n, (n, k)) <$> array_index k) ks.

Definition index_le (a b : N * string) : Prop := (a.1 ≤ b.1)%N.
#[local] Instance index_le_dec a b : Decision (index_le a b) :=
  ltac:(unfold index_le; apply _).

(** The names of the own properties: a replaced prototype is none. *)
Definition own_names (o : list (string * V)) : list string :=
  filter (λ k, k ≠ "__proto__") o.*1.

(** [Object.keys(o)]: array indices in ascending order, then the other
    keys in insertion order. *)
Definition keys (o : list (string * V)) : list string :=
  (merge_sort index_le (index_keys (own_names o))).*2
    ++ filter (λ k, array_index k = None) (own_names o).
End JsObject.
End JsObject.

(** ** The state of a process *)

(** What [pluginsByName] holds: [{ name: provider.name, initializer }],
    where [initializer] is the memoising closure made by
    [registerPluginProvider], identified by its address among the
    [closures]. *)
Record PluginBinding := mkPluginBinding { name : string; initializer : nat }.

(** The own fields of a [Registry] object.  The prototypes of [actionsById]
    and of the two caches are never replaced: [registerAction] assigns
    under keys that start with a slash, and a cache is assigned only under
    a name for which [cache[name]] was falsy, which [cache["__proto__"]]
    is not. *)
Record Tables := mkTables {
  actionsById : gmap string Action;
  traceStoresByEnv : gmap string AsyncProvider;
  flowStateStoresByEnv : gmap string AsyncProvider;
  pluginsByName : list (string * PluginBinding);
  schemasByName : gmap string SchemaData;
  traceStoresByEnvCache : gmap string nat;
  flowStateStoresByEnvCache : gmap string nat;
}.

Definition new_Tables : Tables := mkTables ∅ ∅ ∅ [] ∅ ∅ ∅.

(** What a plugin initialiser has returned: a promise, by its address
    among the [promises], or a value that is no promise. *)
Inductive Returned :=
| promise (p : nat)
| plain (v : Plain).

Definition Returned_truthy (x : Returned) : bool :=
  match x with
  | promise _ => true
  | plain (PlainTruthy _) => true
  | plain _ => false
  end.

(** The variables a memoising closure captures: [provider], and [cached],
    which is [undefined] at first. *)
Record Closure := mkClosure { provider : PluginProvider; cached : Returned }.

(** A promise returned by client code: still running in the context it was
    called in, with registrations to come, or settled. *)
Inductive Promise :=
| Pending (ctx : option Registry) (todo : list RegOp) (result : Result Value)
| Settled (result : Result Value).

Inductive LogEntry :=
| Info (msg : string)
| Warn (msg : string).

(** The two kinds of store a node builds on demand. *)
Inductive StoreKind := TraceStore | FlowStateStore.

(** A call of client code made by the registry. *)
Inductive Invocation :=
| CallProvider (kind : StoreKind) (node : nat) (env : string)
| CallInitializer (closure : nat).

#[global] Instance StoreKind_eq_dec : EqDecision StoreKind.
Proof. solve_decision. Defined.
#[global] Instance Invocation_eq_dec : EqDecision Invocation.
Proof. solve_decision. Defined.

(** [invocations] and [unkept] are kept for the proofs and read by no
    method: the calls of client code made, and those of them that gave the
    registry nothing it keeps (the call threw, or returned a falsy
    value). *)
Record State := mkState {
  heap : list Tables;            (* the Registry objects, by address *)
  closures : list Closure;       (* the memoising closures, by address *)
  promises : list Promise;       (* the promises of client code, by address *)
  logger : list LogEntry;        (* what logger.info and logger.warn received *)
  invocations : list Invocation;
  unkept : list Invocation;
  global_REGISTRY : Registry;    (* global[REGISTRY_KEY] *)
  registryAls : option Registry; (* registryAls.getStore() *)
}.

Definition set_heap (f : list Tables → list Tables) (s : State) : State :=
  mkState (f (heap s)) (closures s) (promises s) (logger s) (invocations s)
          (unkept s) (global_REGISTRY s) (registryAls s).
Definition set_closures (f : list Closure → list Closure) (s : State) : State :=
  mkState (heap s) (f (closures s)) (promises s) (logger s) (invocations s)
          (unkept s) (global_REGISTRY s) (registryAls s).
Definition set_promises (f : list Promise → list Promise) (s : State) : State :=
  mkState (heap s) (closures s) (f (promises s)) (logger s) (invocations s)
          (unkept s) (global_REGISTRY s) (registryAls s).
Definition set_logger (f : list LogEntry → list LogEntry) (s : State) : State :=
  mkState (heap s) (closures s) (promises s) (f (logger s)) (invocations s)
          (unkept s) (global_REGISTRY s) (registryAls s).
Definition set_invocations (f : list Invocation → list Invocation) (s : State) : State :=
  mkState (heap s) (closures s) (promises s) (logger s) (f (invocations s))
          (unkept s) (global_REGISTRY s) (registryAls s).
Definition set_unkept (f : list Invocation → list Invocation) (s : State) : State :=
  mkState (heap s) (closures s) (promises s) (logger s) (invocations s)
          (f (unkept s)) (global_REGISTRY s) (registryAls s).
Definition set_global (r : Registry) (s : State) : State :=
  mkState (heap s) (closures s) (promises s) (logger s) (invocations s)
          (unkept s) r (registryAls s).
Definition set_registryAls (c : option Registry) (s : State) : State :=
  mkState (heap s) (closures s) (promises s) (logger s) (invocations s)
          (unkept s) (global_REGISTRY s) c.

(** The fields of the object [this] points to. *)
Definition fields (s : State) (this : Registry) : Tables :=
  default new_Tables (heap s !! addr this).

Definition set_fields (this : Registry) (f : Tables → Tables) (s : State) : State :=
  set_heap (alter f (addr this)) s.

Definition set_actionsById (f : gmap string Action → gmap string Action) (t : Tables) :=
  mkTables (f (actionsById t)) (traceStoresByEnv t) (flowStateStoresByEnv t)
           (pluginsByName t) (schemasByName t) (traceStoresByEnvCache t)
           (flowStateStoresByEnvCache t).
Definition set_pluginsByName
    (f : list (string * PluginBinding) → list (string * PluginBinding)) (t : Tables) :=
  mkTables (actionsById t) (traceStoresByEnv t) (flowStateStoresByEnv t)
           (f (pluginsByName t)) (schemasByName t) (traceStoresByEnvCache t)
           (flowStateStoresByEnvCache t).
Definition set_schemasByName
    (f : gmap string SchemaData → gmap string SchemaData) (t : Tables) :=
  mkTables (actionsById t) (traceStoresByEnv t) (flowStateStoresByEnv t)
           (pluginsByName t) (f (schemasByName t)) (traceStoresByEnvCache t)
           (flowStateStoresByEnvCache t).

(** The trace-store and the flow-state-store methods are the same text up
    to the names of the two fields they use; [storesByEnv] and
    [storesByEnvCache] select the fields. *)
Definition storesByEnv (k : StoreKind) (t : Tables) : gmap string AsyncProvider :=
  match k with
  | TraceStore => traceStoresByEnv t
  | FlowStateStore => flowStateStoresByEnv t
  end.
Definition storesByEnvCache (k : StoreKind) (t : Tables) : gmap string nat :=
  match k with
  | TraceStore => traceStoresByEnvCache t
  | FlowStateStore => flowStateStoresByEnvCache t
  end.
Definition set_storesByEnv (k : StoreKind)
    (f : gmap string AsyncProvider → gmap string AsyncProvider) (t : Tables) :=
  match k with
  | TraceStore =>
      mkTables (actionsById t) (f (traceStoresByEnv t)) (flowStateStoresByEnv t)
               (pluginsByName t) (schemasByName t) (traceStoresByEnvCache t)
               (flowStateStoresByEnvCache t)
  | FlowStateStore =>
      mkTables (actionsById t) (traceStoresByEnv t) (f (flowStateStoresByEnv t))
               (pluginsByName t) (schemasByName t) (traceStoresByEnvCache t)
               (flowStateStoresByEnvCache t)
  end.
Definition set_storesByEnvCache (k : StoreKind)
    (f : gmap string nat → gmap string nat) (t : Tables) :=
  match k with
  | TraceStore =>
      mkTables (actionsById t) (traceStoresByEnv t) (flowStateStoresByEnv t)
               (pluginsByName t) (schemasByName t) (f (traceStoresByEnvCache t))
               (flowStateStoresByEnvCache t)
  | FlowStateStore =>
      mkTables (actionsById t) (traceStoresByEnv t) (flowStateStoresByEnv t)
               (pluginsByName t) (schemasByName t) (traceStoresByEnvCache t)
               (f (flowStateStoresByEnvCache t))
  end.

(** ** Computations with suspension points

    A method body is a sequence of synchronous segments ([Act], a state
    transformer that runs without interruption) separated by the points
    where an [async] function gives up control: [Await p] on a promise of
    client code, and [Tick] where the awaited value is already at hand
    ([await] suspends also then).  Nothing in registry.ts catches, so an
    exception, and a rejection met by [await], ends the computation
    ([Throw]).  [Unmodelled] is where the model stops. *)
Inductive Async (A : Type) : Type :=
| Ret (a : A)
| Throw (e : Error)
| Unmodelled
| Act (f : State → State * Async A)
| Await (p : nat) (k : Value → Async A)
| Tick (k : Async A).
Arguments Ret {A} a.
Arguments Throw {A} e.
Arguments Unmodelled {A}.
Arguments Act {A} f.
Arguments Await {A} p k.
Arguments Tick {A} k.

Fixpoint bind {A B} (m : Async A) (k : A → Async B) : Async B :=
  match m with
  | Ret a => k a
  | Throw e => Throw e
  | Unmodelled => Unmodelled
  | Act f => Act (λ s, let '(s', m') := f s in (s', bind m' k))
  | Await p c => Await p (λ v, bind (c v) k)
  | Tick c => Tick (bind c k)
  end.

#[global] Instance Async_ret : MRet Async := @Ret.
#[global] Instance Async_bind : MBind Async := λ A B k m, bind m k.

(** A synchronous function called from an asynchronous one. *)
Definition call {A} (f : State → State * A) : Async A :=
  Act (λ s, let '(s', a) := f s in (s', Ret a)).

(** Reading the state. *)
Definition read {A} (f : State → A) : Async A :=
  Act (λ s, (s, Ret (f s))).

(** How a synchronous piece of code completes: with a value, with an
    exception, or ([None]) in a way that is not modelled. *)
Definition Completion (A : Type) : Type := option (Error + A).

Definition complete {A} (c : Completion A) : Async A :=
  match c with
  | Some (inr a) => Ret a
  | Some (inl e) => Throw e
  | None => Unmodelled
  end.

Definition attempt {A} (f : State → State * Completion A) : Async A :=
  Act (λ s, let '(s', c) := f s in (s', complete c)).

(** Reading a property that may be inherited from a replaced prototype. *)
Definition read_client {A} (f : State → option A) : Async A :=
  attempt (λ s, (s, inr <$> f s)).

(** [await m] where [m] is a call of one of the registry's own [async]
    methods: the callee runs, and the caller resumes a tick later. *)
Definition await {A} (m : Async A) : Async A :=
  x ← m; Tick (Ret x).

(** [await p] on a promise, and [return p] from an [async] function,
    which settles as [p] does. *)
Definition await_promise (p : nat) : Async Value := Await p Ret.

Fixpoint for_each {A B} (l : list A) (body : A → Async B) : Async unit :=
  match l with
  | [] => Ret ()
  | x :: l' => body x;; for_each l' body
  end.

(** ** registry.ts: the [Registry] class *)

(** [s.split(sep)] for a separator of one character (of one byte, as the
    slash is in UTF-8 and in UTF-16 alike). *)
Fixpoint split (sep : ascii) (s : string) : list string :=
  match s with
  | EmptyString => [EmptyString]
  | String c s' =>
      if bool_decide (c = sep) then EmptyString :: split sep s'
      else match split sep s' with
           | tok :: toks => String c tok :: toks
           | [] => [String c EmptyString]
           end
  end.

Definition parsePluginName (registryKey : string) : option string :=
  let tokens := split "/" registryKey in
  if bool_decide (length tokens = 4) then tokens !! 2 else None.

(** Truthiness of a string: every string but the empty one. *)
Definition truthy (s : string) : bool := bool_decide (s ≠ "").

(** [registryAls.getStore() || global[REGISTRY_KEY]] *)
Definition getRegistryInstance (s : State) : Registry :=
  default (global_REGISTRY s) (registryAls s).

Module Method.

(** [new Registry(parent)] *)
Definition new_Registry (parent : option Registry) (s : State) : State * Registry :=
  (set_heap (λ h, h ++ [new_Tables]) s, mkRegistry (length (heap s)) parent).

Definition withCurrent (s : State) : State * Registry :=
  new_Registry (Some (getRegistryInstance s)) s.

Definition withParent (parent : Registry) (s : State) : State * Registry :=
  new_Registry (Some parent) s.

(** [this.actionsById.hasOwnProperty(key)] is a test on the own
    properties; the key starts with a slash. *)
Definition registerAction (this : Registry) (type : ActionType) (action : Action)
    (s : State) : State :=
  let s := set_logger (λ l, l ++ [Info ("Registering " +:+ ActionType_string type
                                         +:+ ": " +:+ action_name action)]) s in
  let key := "/" +:+ ActionType_string type +:+ "/" +:+ action_name action in
  let s :=
    if bool_decide (is_Some (actionsById (fields s this) !! key)) then
      set_logger (λ l, l ++ [Warn ("WARNING: " +:+ key
                   +:+ " already has an entry in the registry. Overwriting.")]) s
    else s in
  set_fields this (set_actionsById <[key := action]>) s.

(** [registerTraceStore] and [registerFlowStateStore] *)
Definition registerStore (k : StoreKind) (this : Registry) (env : string)
    (storeProvider : AsyncProvider) (s : State) : State :=
  set_fields this (set_storesByEnv k <[env := storeProvider]>) s.

Definition registerTraceStore := registerStore TraceStore.
Definition registerFlowStateStore := registerStore FlowStateStore.

(** [registerPluginProvider]: a new closure with its own [cached], stored
    under [name]; the provider is not called. *)
Definition registerPluginProvider (this : Registry) (name : string)
    (provider : PluginProvider) (s : State) : State :=
  let closure := length (closures s) in
  let s := set_closures (λ c, c ++ [mkClosure provider (plain PlainUndefined)]) s in
  set_fields this
    (set_pluginsByName
       (JsObject.set name (mkPluginBinding (plugin_name provider) closure))) s.

Definition registerSchema (this : Registry) (name : string) (data : SchemaData)
    (s : State) : State :=
  set_fields this (set_schemasByName <[name := data]>) s.

(** A registration as client code makes it: the method of [registry]. *)
Definition register (registry : Registry) (op : RegOp) : State → State :=
  match op with
  | RegisterAction type action => registerAction registry type action
  | RegisterTraceStore env p => registerTraceStore registry env p
  | RegisterFlowStateStore env p => registerFlowStateStore registry env p
  | RegisterPluginProvider name p => registerPluginProvider registry name p
  | RegisterSchema name data => registerSchema registry name data
  end.

(** The registrations of a piece of client code, made through the exported
    functions, that is on [getRegistryInstance()]. *)
Definition run_RegOps (ops : list RegOp) (s : State) : State :=
  foldl (λ s op, register (getRegistryInstance s) op s) s ops.

(** Calling a function of a client that is typed [AsyncProvider]: it runs
    to its first suspension and returns a new promise, or it throws. *)
Definition invoke (who : Invocation) (fn : AsyncProvider) (s : State)
    : State * (Error + nat) :=
  let s := set_invocations (λ l, l ++ [who]) s in
  let s := run_RegOps (prov_sync fn) s in
  match fn with
  | mkProvider _ todo result =>
      (set_promises (λ ps, ps ++ [Pending (registryAls s) todo result]) s,
       inr (length (promises s)))
  | mkThrowingProvider _ e => (set_unkept (λ l, l ++ [who]) s, inl e)
  end.

(** Calling [provider.initializer()]. *)
Definition invoke_initializer (who : Invocation) (fn : Initializer) (s : State)
    : State * (Error + Returned) :=
  match fn with
  | AsyncInitializer fn =>
      let '(s, r) := invoke who fn s in
      (s, match r with inr p => inr (promise p) | inl e => inl e end)
  | SyncInitializer sync v =>
      let s := set_invocations (λ l, l ++ [who]) s in
      let s := run_RegOps sync s in
      (if Returned_truthy (plain v) then s else set_unkept (λ l, l ++ [who]) s,
       inr (plain v))
  end.

(** The body of [lookupOverlaidTraceStore] and of
    [lookupOverlaidFlowStateStore], which has no [await]: what it returns,
    a promise from the cache or from the provider, or what the two tables
    inherit under [env].  Where the table of providers inherits a property
    under [env], so does the cache, and the provider is not called. *)
Definition lookupOverlaidStore_body (k : StoreKind) (this : Registry) (env : string)
    (s : State) : State * Completion (Property nat) :=
  match JsObject.get_client (storesByEnv k (fields s this)) env with
  | None => (s, None)
  | Some Undefined => (s, Some (inr Undefined))
  | Some bound =>
      match JsObject.get (storesByEnvCache k (fields s this)) env with
      | Undefined =>
          match bound with
          | Own storeProvider =>
              match invoke (CallProvider k (addr this) env) storeProvider s with
              | (s, inr newStore) =>
                  (set_fields this (set_storesByEnvCache k <[env := newStore]>) s,
                   Some (inr (Own newStore)))
              | (s, inl e) => (s, Some (inl e))
              end
          | _ => (s, None)
          end
      | cached => (s, Some (inr cached))
      end
  end.

Definition lookupOverlaidStore (k : StoreKind) (this : Registry) (env : string)
    : Async (Property Value) :=
  found ← attempt (lookupOverlaidStore_body k this env);
  match found with
  | Own p => store ← await_promise p; Ret (Own store)
  | Inherited member => Ret (Inherited member)
  | Undefined => Ret Undefined
  end.

(** [lookupTraceStore] and [lookupFlowStateStore] *)
Fixpoint lookupStore (k : StoreKind) (this : Registry) (env : string)
    : Async (Property Value) :=
  overlaid ← await (lookupOverlaidStore k this env);
  if JsObject.truthy overlaid then Ret overlaid
  else match parent this with
       | Some parent => lookupStore k parent env
       | None => Ret Undefined
       end.

Definition lookupOverlaidTraceStore := lookupOverlaidStore TraceStore.
Definition lookupOverlaidFlowStateStore := lookupOverlaidStore FlowStateStore.
Definition lookupTraceStore := lookupStore TraceStore.
Definition lookupFlowStateStore := lookupStore FlowStateStore.

(** The closure [() => { if (cached) return cached; cached =
    provider.initializer(); return cached; }] at address [closure]. *)
Definition call_initializer (closure : nat) (s : State)
    : State * Completion Returned :=
  match closures s !! closure with
  | None => (s, None)
  | Some c =>
      if Returned_truthy (cached c) then (s, Some (inr (cached c)))
      else
        match invoke_initializer (CallInitializer closure)
                                 (plugin_initializer (provider c)) s with
        | (s, inr x) =>
            (set_closures (alter (λ c, mkClosure (provider c) x) closure) s,
             Some (inr x))
        | (s, inl e) => (s, Some (inl e))
        end
  end.

(** The synchronous start of [initializePlugin]: the call of the binding's
    [initializer], if there is a binding.  What the table inherits under
    [name] has no [initializer] to call. *)
Definition initializePlugin_body (this : Registry) (name : string) (s : State)
    : State * Completion (option Returned) :=
  match JsObject.get_ordered (pluginsByName (fields s this)) name with
  | None => (s, None)
  | Some Undefined => (s, Some (inr None))
  | Some (Inherited _) => (s, Some (inl TypeError))
  | Some (Own binding) =>
      let '(s, c) := call_initializer (initializer binding) s in
      (s, match c with
          | Some (inr x) => Some (inr (Some x))
          | Some (inl e) => Some (inl e)
          | None => None
          end)
  end.

Definition Plain_value (v : Plain) : option Value :=
  match v with
  | PlainUndefined => None
  | PlainFalsy v | PlainTruthy v => Some v
  end.

Definition initializePlugin (this : Registry) (name : string) : Async (option Value) :=
  started ← attempt (initializePlugin_body this name);
  match started with
  | Some (promise p) => v ← await_promise p; Ret (Some v)
  | Some (plain v) => Tick (Ret (Plain_value v))
  | None => Ret None
  end.

Fixpoint lookupAction (this : Registry) (key : string) : Async (Property Action) :=
  let pluginName := parsePluginName key in
  found ← read (λ s, JsObject.get (actionsById (fields s this)) key);
  match found, pluginName with
  | Undefined, Some pluginName =>
      if truthy pluginName then await (initializePlugin this pluginName);; Ret ()
      else Ret ()
  | _, _ => Ret ()
  end;;
  found ← read (λ s, JsObject.get (actionsById (fields s this)) key);
  if JsObject.truthy found then Ret found
  else match parent this with
       | Some parent => lookupAction parent key
       | None => Ret Undefined
       end.

Fixpoint listActions (this : Registry) : Async (gmap string Action) :=
  names ← read (λ s, JsObject.keys (pluginsByName (fields s this)));
  for_each names (λ pluginName, await (initializePlugin this pluginName));;
  inherited ← await (match parent this with
                     | Some parent => listActions parent
                     | None => Ret ∅
                     end);
  own ← read (λ s, actionsById (fields s this));
  Ret (own ∪ inherited).

Fixpoint lookupPlugin (this : Registry) (name : string) (s : State)
    : option (Property PluginBinding) :=
  found ← JsObject.get_ordered (pluginsByName (fields s this)) name;
  if JsObject.truthy found then Some found
  else match parent this with
       | Some parent => lookupPlugin parent name s
       | None => Some Undefined
       end.

Fixpoint lookupSchema (this : Registry) (name : string) (s : State)
    : option (Property SchemaData) :=
  found ← JsObject.get_client (schemasByName (fields s this)) name;
  if JsObject.truthy found then Some found
  else match parent this with
       | Some parent => lookupSchema parent name s
       | None => Some Undefined
       end.

End Method.
Import Method.

(** ** registry.ts: the exported functions

    Each dispatches to the method of [getRegistryInstance()]; the registry
    is looked up when the function is called. *)
Module Exported.
Definition on_current {A} (method : Registry → Async A) : Async A :=
  registry ← read getRegistryInstance; method registry.

Definition lookupAction (key : string) : Async (Property Action) :=
  on_current (λ registry, Method.lookupAction registry key).

Definition registerAction (type : ActionType) (action : Action) (s : State) : State :=
  Method.registerAction (getRegistryInstance s) type action s.

Definition listActions : Async (gmap string Action) :=
  on_current Method.listActions.

Definition registerTraceStore (env : string) (p : AsyncProvider) (s : State) : State :=
  Method.registerTraceStore (getRegistryInstance s) env p s.

Definition lookupTraceStore (env : string) : Async (Property Value) :=
  on_current (λ registry, Method.lookupTraceStore registry env).

Definition registerFlowStateStore (env : string) (p : AsyncProvider) (s : State)
    : State :=
  Method.registerFlowStateStore (getRegistryInstance s) env p s.

Definition lookupFlowStateStore (env : string) : Async (Property Value) :=
  on_current (λ registry, Method.lookupFlowStateStore registry env).

Definition registerPluginProvider (name : string) (p : PluginProvider) (s : State)
    : State :=
  Method.registerPluginProvider (getRegistryInstance s) name p s.

(** As written: [getRegistryInstance().lookupFlowStateStore(name)]. *)
Definition lookupPlugin (name : string) : Async (Property Value) :=
  on_current (λ registry, Method.lookupFlowStateStore registry name).

Definition initializePlugin (name : string) : Async (option Value) :=
  on_current (λ registry, Method.initializePlugin registry name).

Definition registerSchema (name : string) (data : SchemaData) (s : State) : State :=
  Method.registerSchema (getRegistryInstance s) name data s.

Definition lookupSchema (name : string) (s : State) : option (Property SchemaData) :=
  Method.lookupSchema (getRegistryInstance s) name s.

Definition __hardResetRegistryForTesting (s : State) : State :=
  let '(s, registry) := new_Registry None s in set_global registry s.
End Exported.

(** The process once the module is loaded:
    [global[REGISTRY_KEY] = new Registry()]. *)
Definition loaded : State :=
  mkState [new_Tables] [] [] [] [] [] (mkRegistry 0 None) None.

(** ** Running computations *)

(** One uninterrupted run: up to the next suspension point or the end. *)
Fixpoint run_atomic {A} (m : Async A) (s : State) : State * Async A :=
  match m with
  | Act f => let '(s', m') := f s in run_atomic m' s'
  | _ => (s, m)
  end.

(** The client code behind promise [p] finishes: its remaining
    registrations are made in the context it was called in, and [p]
    settles.  [None] when there is no such promise. *)
Definition settle (p : nat) (s : State) : option (State * Result Value) :=
  match promises s !! p with
  | Some (Pending ctx todo result) =>
      let here := registryAls s in
      let s := run_RegOps todo (set_registryAls ctx s) in
      Some (set_promises <[p := Settled result]> (set_registryAls here s), result)
  | Some (Settled result) => Some (s, result)
  | None => None
  end.

(** A call that nothing else interleaves with: at [Await p] the client
    code behind [p] finishes, and the computation goes on.  [None] where
    the model says nothing. *)
Fixpoint run {A} (m : Async A) (s : State) : option (State * Result A) :=
  match m with
  | Ret a => Some (s, Resolved a)
  | Throw e => Some (s, Rejected e)
  | Unmodelled => None
  | Act f => let '(s', m') := f s in run m' s'
  | Tick k => run k s
  | Await p k =>
      match settle p s with
      | Some (s', Resolved v) => run (k v) s'
      | Some (s', Rejected e) => Some (s', Rejected e)
      | None => None
      end
  end.

(** ** The scope manager *)

(** [registryAls.run(registry, () => fn(registry))]: [fn] runs up to its
    first suspension with [registry] as the store; what is left of it keeps
    that store, and the caller's store is back when [run] returns. *)
Definition runInRegistry {O} (registry : Registry) (fn : Registry → Async O)
    (s : State) : State * Async O :=
  let outer := registryAls s in
  let '(s, rest) := run_atomic (fn registry) (set_registryAls (Some registry) s) in
  (set_registryAls outer s, rest).

Definition runInIsolatedRegistry {O} (fn : Registry → Async O) (s : State)
    : State * Async O :=
  let '(s, registry) := new_Registry None s in
  runInRegistry registry fn s.

Definition runInTempRegistry {O} (fn : Registry → Async O) (s : State)
    : State * Async O :=
  let '(s, registry) := withCurrent s in
  runInRegistry registry fn s.

(** ** Interleaved execution

    One thread runs the asynchronous calls in flight: each runs without
    interruption from one suspension point to the next, and between two
    such runs any other call may run, client code may register or look up
    things, and promises of client code may settle. *)
Inductive AsyncCall :=
| LookupAction (key : string)
| ListActions
| LookupStore (k : StoreKind) (env : string)
| InitializePlugin (name : string).

Inductive Reply :=
| ReplyAction (action : Property Action)
| ReplyActions (actions : gmap string Action)
| ReplyStore (store : Property Value)
| ReplyValue (v : option Value).

Definition perform (this : Registry) (c : AsyncCall) : Async Reply :=
  match c with
  | LookupAction key => a ← lookupAction this key; Ret (ReplyAction a)
  | ListActions => m ← listActions this; Ret (ReplyActions m)
  | LookupStore k env => v ← lookupStore k this env; Ret (ReplyStore v)
  | InitializePlugin name => v ← initializePlugin this name; Ret (ReplyValue v)
  end.



Definition resume {A} (ctx : option Registry) (m : Async A) (s : State)
    : option (State * Async A) :=
  match m with
  | Tick k => Some (run_atomic k (set_registryAls ctx s))
  | Await p k =>
      match promises s !! p with
      | Some (Settled (Resolved v)) => Some (run_atomic (k v) (set_registryAls ctx s))
      | Some (Settled (Rejected e)) => Some (s, Throw e)
      | _ => None
      end
  | _ => None
  end.



(** How often the registry has made the call [i], and how often the call
    gave it nothing it keeps. *)
Definition count (i : Invocation) (s : State) : nat :=
  length (filter (λ j, j = i) (invocations s)).

(** ** Client code run in a scope

    A function [fn] given to [runInRegistry]: it uses its argument
    [registry] and the exported functions, and nothing else of the
    registry. *)
Inductive Script :=
| Returns (o : Value)
| OnArgument (op : RegOp) (rest : Script)
    (* registry.registerAction(...), registry.registerSchema(...), ... *)
| OnCurrent (op : RegOp) (rest : Script)
    (* registerAction(...), registerSchema(...), ... *)
| Awaits (c : AsyncCall) (rest : Reply → Script)
    (* await lookupAction(...), await listActions(), ... *)
| Starts (c : AsyncCall) (rest : Script)
    (* the same calls, not awaited *)
| ReadsSchema (name : string) (rest : Property SchemaData → Script)
| ReadsPlugin (name : string) (rest : Property PluginBinding → Script).

Fixpoint interp (fn : Script) (registry : Registry) : Async Value :=
  match fn with
  | Returns o => Ret o
  | OnArgument op rest =>
      call (λ s, (register registry op s, ()));; interp rest registry
  | OnCurrent op rest =>
      call (λ s, (register (getRegistryInstance s) op s, ()));; interp rest registry
  | Awaits c rest =>
      reply ← await (Exported.on_current (λ current, perform current c));
      interp (rest reply) registry
  | Starts c rest =>
      call (λ s, ((run_atomic (perform (getRegistryInstance s) c) s).1, ()));;
      interp rest registry
  | ReadsSchema name rest =>
      data ← read_client (Exported.lookupSchema name); interp (rest data) registry
  | ReadsPlugin name rest =>
      binding ← read_client (lookupPlugin registry name);
      interp (rest binding) registry
  end.

(** ** Predicates used by the theorems *)

(** Every synchronous segment of [m], run from a state in [I], ends in [I]
    and in a state related by [R] to the one it started from. *)
Inductive keeps (I : State → Prop) (R : State → State → Prop) {A}
    : Async A → Prop :=
| keeps_Ret a : keeps I R (Ret a)
| keeps_Throw e : keeps I R (Throw e)
| keeps_Unmodelled : keeps I R Unmodelled
| keeps_Act f :
    (∀ s, I s → I (f s).1 ∧ R s (f s).1 ∧ keeps I R (f s).2) → keeps I R (Act f)
| keeps_Await p k : (∀ v, keeps I R (k v)) → keeps I R (Await p k)
| keeps_Tick k : keeps I R k → keeps I R (Tick k).





(** The five tables of a node, without its caches. *)
Definition same_tables (t1 t2 : Tables) : Prop :=
  actionsById t1 = actionsById t2
  ∧ traceStoresByEnv t1 = traceStoresByEnv t2
  ∧ flowStateStoresByEnv t1 = flowStateStoresByEnv t2
  ∧ pluginsByName t1 = pluginsByName t2
  ∧ schemasByName t1 = schemasByName t2.

(** [this], its parent, its parent's parent, ... *)
Fixpoint chain (this : Registry) : list Registry :=
  this :: match parent this with
          | Some parent => chain parent
          | None => []
          end.

(** The own entry of the first node of the chain that has one in the
    table [get], and [undefined] when none has. *)
Definition first_in_chain {V} (get : Tables → option V) (this : Registry)
    (s : State) : Property V :=
  from_option Own Undefined (head (omap (λ r, get (fields s r)) (chain this))).

(** The first truthy [o[k]] along the chain, where [get] reads [o[k]] in
    the tables of a node. *)
Definition first_truthy {V} (get : Tables → Property V) (this : Registry)
    (s : State) : Property V :=
  default Undefined
    (head (filter (λ p, JsObject.truthy p = true) ((λ r, get (fields s r)) <$> chain this))).

Definition Result_map {A B} (f : A → B) (r : Result A) : Result B :=
  match r with
  | Resolved a => Resolved (f a)
  | Rejected e => Rejected e
  end.

(** A completion of a call with the result transformed. *)
Definition then_ {A B} (f : A → B) (r : option (State * Result A))
    : option (State * Result B) :=
  '(s, res) ← r; Some (s, Result_map f res).

(** What follows a call that came back as [r]: [next] if it resolved. *)
Definition and_then {A B} (r : option (State * Result A))
    (next : A → State → option (State * Result B)) : option (State * Result B) :=
  '(s, res) ← r;
  match res with
  | Resolved a => next a s
  | Rejected e => Some (s, Rejected e)
  end.

(** What [lookupAction] goes on with once the plugin, if any, is
    initialised: the local table again, then the parent. *)
Definition recheck (this : Registry) (key : string) (s : State)
    : option (State * Result (Property Action)) :=
  let found := JsObject.get (actionsById (fields s this)) key in
  if JsObject.truthy found then Some (s, Resolved found)
  else match parent this with
       | Some parent => run (lookupAction parent key) s
       | None => Some (s, Resolved Undefined)
       end.


Fixpoint occurs (c : ascii) (s : string) : bool :=
  match s with
  | EmptyString => false
  | String c' s' => bool_decide (c' = c) || occurs c s'
  end.

(** What a registration may change of a state: tables of nodes and the
    logger, and it may add closures that have not run; it leaves the
    caches, the promises, the calls made and the scope alone, and unbinds
    no provider. *)
Definition registration (s s' : State) : Prop :=
  invocations s' = invocations s
  ∧ unkept s' = unkept s
  ∧ promises s' = promises s
  ∧ registryAls s' = registryAls s
  ∧ global_REGISTRY s' = global_REGISTRY s
  ∧ length (heap s') = length (heap s)
  ∧ (∀ r k, storesByEnvCache k (fields s' r) = storesByEnvCache k (fields s r))
  ∧ (∀ r k env, is_Some (storesByEnv k (fields s r) !! env) →
                is_Some (storesByEnv k (fields s' r) !! env))
  ∧ (∃ new, closures s' = closures s ++ new
            ∧ Forall (λ c, cached c = plain PlainUndefined) new).


(** A computation runs in the scope of [registry], and a state differs
    from an earlier one at most in the tables of [registry] and in what is
    no table of a node. *)
Definition in_scope (registry : Registry) (s : State) : Prop :=
  registryAls s = Some registry.

Definition elsewhere_untouched (registry : Registry) (s s' : State) : Prop :=
  ∀ r, addr r ≠ addr registry → same_tables (fields s' r) (fields s r).

(** Client code that registers no plugin, and a state in which no plugin
    initialiser, run or still running, does. *)
Definition registers_plugin (op : RegOp) : bool :=
  match op with
  | RegisterPluginProvider _ _ => true
  | _ => false
  end.

Definition quiet_ops (ops : list RegOp) : Prop :=
  Forall (λ op, registers_plugin op = false) ops.

Definition quiet (s : State) : Prop :=
  Forall (λ c, quiet_ops (init_ops (plugin_initializer (provider c)))) (closures s)
  ∧ Forall (λ p, match p with
                 | Pending _ todo _ => quiet_ops todo
                 | Settled _ => True
                 end) (promises s).

(** From [s] to [s']: every closure is still there, for the same
    provider, and with the same [cached] unless its initialiser has been
    called; the calls made are still on record; and a plugin table has
    under a name the binding it had, or one made since. *)
Definition rebinding (s s' : State) : Prop :=
  (∀ c cl, closures s !! c = Some cl →
     ∃ cl', closures s' !! c = Some cl'
            ∧ provider cl' = provider cl
            ∧ (cached cl' = cached cl ∨ CallInitializer c ∈ invocations s'))
  ∧ (∀ i, i ∈ invocations s → i ∈ invocations s')
  ∧ (∀ r name b,
       JsObject.own (pluginsByName (fields s r)) name = Some b →
       JsObject.own (pluginsByName (fields s' r)) name = Some b
       ∨ ∃ b', JsObject.own (pluginsByName (fields s' r)) name = Some b'
               ∧ (length (closures s) ≤ initializer b')%nat).

(** Whether [traceStoresByEnv[env]] (or [flowStateStoresByEnv[env]]) is
    known to be [undefined] on a node, and the first node of the chain
    where it is not. *)
Definition unbound (k : StoreKind) (env : string) (s : State) (r : Registry) : bool :=
  match JsObject.get_client (storesByEnv k (fields s r)) env with
  | Some Undefined => true
  | _ => false
  end.

Definition nearest_binding (k : StoreKind) (env : string) (s : State)
    (this : Registry) : option Registry :=
  head (filter (λ r, unbound k env s r = false) (chain this)).

(** The completion of a synchronous piece of code, as the outcome of the
    call that ends with it. *)
Definition completion {A} (s : State) (c : Completion A) : option (State * Result A) :=
  match c with
  | Some (inr a) => Some (s, Resolved a)
  | Some (inl e) => Some (s, Rejected e)
  | None => None
  end.



(** ** The specification's sentences, read literally *)

(** On [lookupAction]: a local hit is returned; on a local miss a plugin
    name is inferred from the key and, if one is inferred, that plugin's
    initialisation is awaited before the local table is checked again and
    the parent asked. *)
Definition lookupAction_as_specified : Prop :=
  ∀ this key s,
    match actionsById (fields s this) !! key with
    | Some action => run (lookupAction this key) s = Some (s, Resolved (Own action))
    | None =>
        match parsePluginName key with
        | Some pluginName =>
            run (lookupAction this key) s
            = and_then (run (initializePlugin this pluginName) s)
                       (λ _, recheck this key)
        | None => run (lookupAction this key) s = recheck this key s
        end
    end.



(** On [listActions]: when it resolves, the initialiser of every plugin
    the node had has been called, then or before. *)
Definition listActions_as_specified : Prop :=
  ∀ this s s' actions name binding cl,
    run (listActions this) s = Some (s', Resolved actions) →
    JsObject.get_ordered (pluginsByName (fields s this)) name = Some (Own binding) →
    closures s !! initializer binding = Some cl →
    Returned_truthy (cached cl) = true
    ∨ CallInitializer (initializer binding) ∈ invocations s'.



(** ** States used as examples *)

(** The state a call leaves when nothing interleaves with it. *)
Definition state_after {A} (m : Async A) (s : State) : State :=
  match run m s with
  | Some (s', _) => s'
  | None => s
  end.

Definition root : Registry := mkRegistry 0 None.
Definition child : Registry := mkRegistry 1 (Some root).

(** A provider that registers nothing and resolves to [v]. *)
Definition constant (v : Value) : AsyncProvider := mkProvider [] [] (Resolved v).




(** * Proofs *)

(** ** Computations *)

Lemma Async_induction {A} (P : Async A → Prop) :
  (∀ a, P (Ret a)) →
  (∀ e, P (Throw e)) →
  P Unmodelled →
  (∀ f, (∀ s, P (f s).2) → P (Act f)) →
  (∀ p k, (∀ v, P (k v)) → P (Await p k)) →
  (∀ k, P k → P (Tick k)) →
  ∀ m, P m.
Proof.
  intros HRet HThrow HUnmodelled HAct HAwait HTick.
  fix IH 1. intros [a|e| |f|p k|k].
  - apply HRet.
  - apply HThrow.
  - apply HUnmodelled.
  - apply HAct. intros s. destruct (f s) as [s' m']. apply IH.
  - apply HAwait. intros v. apply IH.
  - apply HTick. apply IH.
Qed.

Lemma bind_unfold {A B} (m : Async A) (k : A → Async B) : m ≫= k = bind m k.
Proof. reflexivity. Qed.

Lemma run_bind {A B} (m : Async A) (k : A → Async B) s :
  run (m ≫= k) s = and_then (run m s) (λ a, run (k a)).
Proof.
  rewrite bind_unfold. revert s.
  induction m as [a|e| |f IH|p c IH|c IH] using Async_induction; intros s; simpl.
  - done.
  - done.
  - done.
  - specialize (IH s). destruct (f s) as [s' m']. apply IH.
  - destruct (settle p s) as [[s' [v|e]]|]; simpl; [apply IH|done|done].
  - apply IH.
Qed.

Lemma and_then_Resolved {A B} s (a : A)
    (next : A → State → option (State * Result B)) :
  and_then (Some (s, Resolved a)) next = next a s.
Proof. done. Qed.

Lemma run_await {A} (m : Async A) s : run (await m) s = run m s.
Proof.
  unfold await. rewrite run_bind. unfold and_then.
  destruct (run m s) as [[s' [a|e]]|]; done.
Qed.

Lemma run_read {A} (f : State → A) s : run (read f) s = Some (s, Resolved (f s)).
Proof. done. Qed.

Lemma run_attempt {A} (f : State → State * Completion A) s :
  run (attempt f) s = completion (f s).1 (f s).2.
Proof. simpl. by destruct (f s) as [s' [[e|a]|]]. Qed.

(** ** Properties of objects *)

Lemma JsObject_get_own {V} (o : gmap string V) k v :
  o !! k = Some v → JsObject.get o k = Own v.
Proof. unfold JsObject.get. by intros ->. Qed.

Lemma JsObject_get_absent {V} (o : gmap string V) k :
  o !! k = None → JsObject.inherited k = false → JsObject.get o k = Undefined.
Proof. unfold JsObject.get, JsObject.property. by intros -> ->. Qed.

Lemma JsObject_get_inherited {V} (o : gmap string V) k :
  o !! k = None → JsObject.inherited k = true → JsObject.get o k = Inherited k.
Proof. unfold JsObject.get, JsObject.property. by intros -> ->. Qed.

Lemma JsObject_get_Undefined {V} (o : gmap string V) k :
  JsObject.get o k = Undefined ↔ o !! k = None ∧ JsObject.inherited k = false.
Proof.
  unfold JsObject.get, JsObject.property.
  destruct (o !! k); [by split; [|intros []]|].
  destruct (JsObject.inherited k); by split; [|intros []].
Qed.

Lemma inherited___proto__ : JsObject.inherited "__proto__" = true.
Proof. reflexivity. Qed.

Lemma JsObject_get_client_own {V} (o : gmap string V) k v :
  o !! k = Some v → JsObject.get_client o k = Some (Own v).
Proof. unfold JsObject.get_client. by intros ->. Qed.

Lemma JsObject_get_client_intact {V} (o : gmap string V) k :
  o !! "__proto__" = None → JsObject.get_client o k = Some (JsObject.get o k).
Proof. unfold JsObject.get_client, JsObject.get. intros ->. by destruct (o !! k). Qed.

Lemma JsObject_get_client_absent {V} (o : gmap string V) k :
  o !! k = None → o !! "__proto__" = None → JsObject.inherited k = false →
  JsObject.get_client o k = Some Undefined.
Proof.
  intros Hk Hproto Hinh. rewrite JsObject_get_client_intact by done.
  by rewrite JsObject_get_absent.
Qed.


(** Where the table of providers inherits from [Object.prototype] under a
    name, the cache finds something under the name too. *)
Lemma JsObject_inherited_together {V W} (o : gmap string V) (c : gmap string W) k member :
  JsObject.get_client o k = Some (Inherited member) → JsObject.get c k ≠ Undefined.
Proof.
  unfold JsObject.get_client, JsObject.get, JsObject.property.
  destruct (o !! k); [by destruct (o !! "__proto__")|].
  destruct (o !! "__proto__"); [done|].
  destruct (JsObject.inherited k); [|done]. by destruct (c !! k).
Qed.

Lemma JsObject_own_set {V} (o : list (string * V)) k v k' :
  JsObject.own (JsObject.set k v o) k'
  = if decide (k = k') then Some v else JsObject.own o k'.
Proof.
  unfold JsObject.own. induction o as [|[k0 v0] o IH]; simpl.
  - case_bool_decide; by case_decide.
  - destruct (bool_decide_reflect (k0 = k)) as [->|Hk0]; simpl.
    + case_bool_decide; by case_decide.
    + destruct (bool_decide_reflect (k0 = k')) as [->|Hk0']; simpl.
      * by rewrite decide_False by congruence.
      * apply IH.
Qed.

Lemma JsObject_get_ordered_own {V} (o : list (string * V)) k v :
  JsObject.own o k = Some v → JsObject.get_ordered o k = Some (Own v).
Proof. unfold JsObject.get_ordered. by intros ->. Qed.

Lemma JsObject_get_ordered_Undefined {V} (o : list (string * V)) k :
  JsObject.get_ordered o k = Some Undefined
  ↔ JsObject.own o k = None ∧ JsObject.own o "__proto__" = None
    ∧ JsObject.inherited k = false.
Proof.
  unfold JsObject.get_ordered, JsObject.property.
  destruct (JsObject.own o k) as [v|] eqn:Hk.
  - split; [done|by intros (? & _)].
  - destruct (JsObject.own o "__proto__") as [w|]; [by split; [|intros (_ & ? & _)]|].
    destruct (JsObject.inherited k); by split; [|intros (_ & _ & ?)].
Qed.

(** ** [split] and [parsePluginName] *)

Lemma split_nonempty sep s : split sep s ≠ [].
Proof.
  destruct s as [|c s]; simpl; [done|]. case_bool_decide; [done|].
  by destruct (split sep s).
Qed.





(** ** [lookupAction] *)

Lemma lookupAction_eq this key :
  lookupAction this key
  = let pluginName := parsePluginName key in
    found ← read (λ s, JsObject.get (actionsById (fields s this)) key);
    match found, pluginName with
    | Undefined, Some pluginName =>
        if truthy pluginName then await (initializePlugin this pluginName);; Ret ()
        else Ret ()
    | _, _ => Ret ()
    end;;
    found ← read (λ s, JsObject.get (actionsById (fields s this)) key);
    if JsObject.truthy found then Ret found
    else match parent this with
         | Some parent => lookupAction parent key
         | None => Ret Undefined
         end.
Proof. by destruct this. Qed.

Lemma run_recheck this key s :
  run (found ← read (λ s, JsObject.get (actionsById (fields s this)) key);
       if JsObject.truthy found then Ret found
       else match parent this with
            | Some parent => lookupAction parent key
            | None => Ret Undefined
            end) s = recheck this key s.
Proof.
  rewrite run_bind, run_read, and_then_Resolved. unfold recheck. cbv zeta.
  destruct (JsObject.truthy _); [done|].
  by destruct (parent this).
Qed.

Lemma run_lookupAction this key s :
  run (lookupAction this key) s
  = match JsObject.get (actionsById (fields s this)) key, parsePluginName key with
    | Undefined, Some pluginName =>
        if truthy pluginName then
          and_then (run (initializePlugin this pluginName) s) (λ _, recheck this key)
        else recheck this key s
    | _, _ => recheck this key s
    end.
Proof.
  rewrite lookupAction_eq. cbv zeta.
  rewrite run_bind, run_read, and_then_Resolved, run_bind.
  destruct (JsObject.get (actionsById (fields s this)) key) as [|a|member] eqn:Hfound.
  - destruct (parsePluginName key) as [pluginName|].
    + destruct (truthy pluginName).
      * rewrite run_bind, run_await. unfold and_then.
        destruct (run (initializePlugin this pluginName) s) as [[s1 [v|e]]|]; simpl;
          [apply run_recheck|done|done].
      * simpl. apply run_recheck.
    + simpl. apply run_recheck.
  - simpl. apply run_recheck.
  - simpl. apply run_recheck.
Qed.

(** What [recheck] is on a key that names no property of
    [Object.prototype]. *)
Lemma recheck_own this key s :
  JsObject.inherited key = false →
  recheck this key s
  = match actionsById (fields s this) !! key with
    | Some action => Some (s, Resolved (Own action))
    | None =>
        match parent this with
        | Some parent => run (lookupAction parent key) s
        | None => Some (s, Resolved Undefined)
        end
    end.
Proof.
  intros Hkey. unfold recheck, JsObject.get, JsObject.property. cbv zeta.
  destruct (actionsById (fields s this) !! key); [done|]. by rewrite Hkey.
Qed.

Lemma Registry_induction (P : Registry → Prop) :
  (∀ a, P (mkRegistry a None)) →
  (∀ a p, P p → P (mkRegistry a (Some p))) →
  ∀ r, P r.
Proof.
  intros Hroot Hchild. fix IH 1. intros [a [p|]].
  - apply Hchild, IH.
  - apply Hroot.
Qed.

Lemma first_in_chain_eq {V} (get : Tables → option V) this s :
  first_in_chain get this s
  = match get (fields s this) with
    | Some v => Own v
    | None =>
        match parent this with
        | Some parent => first_in_chain get parent s
        | None => Undefined
        end
    end.
Proof.
  unfold first_in_chain. destruct this as [a [p|]]; simpl;
    by destruct (get (fields s (mkRegistry a _))).
Qed.

Lemma first_truthy_eq {V} (get : Tables → Property V) this s :
  first_truthy get this s
  = if JsObject.truthy (get (fields s this)) then get (fields s this)
    else match parent this with
         | Some parent => first_truthy get parent s
         | None => Undefined
         end.
Proof.
  unfold first_truthy. destruct this as [a [p|]]; simpl; rewrite filter_cons;
    destruct (get (fields s (mkRegistry a _))); simpl; try done;
    by rewrite decide_False by done.
Qed.

(** On a name [Object.prototype] has no property under, the first truthy
    [o[k]] along the chain is the first own entry. *)
Lemma first_truthy_own {V} (table : Tables → gmap string V) k this s :
  JsObject.inherited k = false →
  first_truthy (λ t, JsObject.get (table t) k) this s
  = first_in_chain (λ t, table t !! k) this s.
Proof.
  intros Hk.
  assert (Hget : ∀ o : gmap string V,
            JsObject.get o k = from_option Own Undefined (o !! k)).
  { intros o. unfold JsObject.get, JsObject.property.
    destruct (o !! k); [done|]. by rewrite Hk. }
  induction this as [a|a p IH] using Registry_induction;
    rewrite first_truthy_eq, first_in_chain_eq, Hget; simpl;
    destruct (table (fields s (mkRegistry a _)) !! k); simpl; done.
Qed.

(** Without a plugin to initialise, [lookupAction] reads the tables along
    the chain and changes nothing. *)
Lemma run_lookupAction_plain this key s :
  (∀ pluginName, parsePluginName key = Some pluginName → truthy pluginName = false) →
  run (lookupAction this key) s
  = Some (s, Resolved (first_truthy (λ t, JsObject.get (actionsById t) key) this s)).
Proof.
  intros Hplain.
  assert (Hrun : ∀ this, run (lookupAction this key) s = recheck this key s).
  { intros r. rewrite run_lookupAction.
    destruct (JsObject.get (actionsById (fields s r)) key); try done.
    destruct (parsePluginName key) as [n|]; [|done]. by rewrite (Hplain n). }
  induction this as [a|a p IH] using Registry_induction;
    rewrite Hrun, first_truthy_eq; unfold recheck; cbv zeta; simpl;
    destruct (JsObject.truthy _); done.
Qed.




(** C1, as amended.  For a key that names no property of
    [Object.prototype]: [lookupAction] returns the action registered
    locally under the key when there is one.  On a local miss with a
    non-empty plugin name inferred from the key it awaits
    [initializePlugin] of that name on this node, and a rejection of that
    call is the lookup's.  Then, and directly on a local miss without such
    a name, it checks the local table again, returns the parent's
    [lookupAction(key)] when the key is still absent, and undefined when
    there is no parent. *)
Theorem lookupAction_local_plugin_parent this key s :
  JsObject.inherited key = false →
  match actionsById (fields s this) !! key with
  | Some action => run (lookupAction this key) s = Some (s, Resolved (Own action))
  | None =>
      match parsePluginName key with
      | Some pluginName =>
          if bool_decide (pluginName = "") then
            run (lookupAction this key) s = recheck this key s
          else
            run (lookupAction this key) s
            = and_then (run (initializePlugin this pluginName) s)
                       (λ _, recheck this key)
      | None => run (lookupAction this key) s = recheck this key s
      end
  end
  ∧ ∀ s1,
      recheck this key s1
      = match actionsById (fields s1 this) !! key with
        | Some action => Some (s1, Resolved (Own action))
        | None =>
            match parent this with
            | Some parent => run (lookupAction parent key) s1
            | None => Some (s1, Resolved Undefined)
            end
        end.
Proof.
  intros Hkey. split; [|intros s1; by apply recheck_own].
  rewrite run_lookupAction.
  destruct (actionsById (fields s this) !! key) as [action|] eqn:Hlocal.
  - rewrite (JsObject_get_own _ _ _ Hlocal), recheck_own, Hlocal by done. done.
  - rewrite JsObject_get_absent by done.
    destruct (parsePluginName key) as [pluginName|]; [|done].
    unfold truthy. case_bool_decide; subst.
    + by rewrite bool_decide_eq_false_2 by (by intros ?).
    + by rewrite bool_decide_eq_true_2.
Qed.

Lemma lookupAction_local_plugin_parent_witness :
  let gpt := mkAction "myplugin/gpt" 5 in
  let myplugin := mkPluginProvider "myplugin"
                    (AsyncInitializer (mkProvider [] [RegisterAction model gpt]
                                                  (Resolved 9))) in
  let s := registerPluginProvider root "myplugin" myplugin loaded in
  JsObject.inherited "/model/myplugin/gpt" = false
  ∧ run (lookupAction root "/model/myplugin/gpt") s
    = and_then (run (initializePlugin root "myplugin") s)
               (λ _, recheck root "/model/myplugin/gpt")
  ∧ snd <$> run (lookupAction root "/model/myplugin/gpt") s = Some (Resolved (Own gpt)).
Proof.
  intros gpt myplugin s.
  assert (Hkey : JsObject.inherited "/model/myplugin/gpt" = false) by reflexivity.
  split; [exact Hkey|].
  destruct (lookupAction_local_plugin_parent root "/model/myplugin/gpt" s Hkey)
    as [Hrun _].
  split; [exact Hrun|]. vm_compute. reflexivity.
Defined.

(** C1, as stated, fails: the key [/model//gpt] has four segments, so the
    empty plugin name is inferred from it, but [lookupAction] does not
    initialise the plugin registered under the empty name, which would have
    registered the action. *)
Lemma lookupAction_as_specified_fails : ¬ lookupAction_as_specified.
Proof.
  intros Hspec.
  pose (plugin := mkPluginProvider ""
          (AsyncInitializer
             (mkProvider [RegisterAction model (mkAction "/gpt" 1)] [] (Resolved 9)))).
  specialize (Hspec root "/model//gpt" (registerPluginProvider root "" plugin loaded)).
  apply (f_equal (fmap snd)) in Hspec.
  vm_compute in Hspec. discriminate Hspec.
Qed.

(** ** What the synchronous functions change *)

Lemma fields_set_fields r f s r' :
  fields (set_fields r f s) r'
  = if decide (addr r = addr r') then
      match heap s !! addr r with Some t => f t | None => new_Tables end
    else fields s r'.
Proof.
  unfold fields, set_fields; simpl. case_decide as Heq.
  - rewrite <- Heq, list_lookup_alter_eq. by destruct (heap s !! addr r).
  - by rewrite list_lookup_alter_ne.
Qed.

Lemma fields_set_fields_ne r f s r' :
  addr r ≠ addr r' → fields (set_fields r f s) r' = fields s r'.
Proof. intros. rewrite fields_set_fields. by case_decide. Qed.

(** A projection of the tables that [f] leaves alone. *)
Lemma fields_set_fields_proj {X} (π : Tables → X) r f s r' :
  (∀ t, π (f t) = π t) → π (fields (set_fields r f s) r') = π (fields s r').
Proof.
  intros Hπ. rewrite fields_set_fields. case_decide as Heq; [|done].
  unfold fields. rewrite <- Heq. by destruct (heap s !! addr r).
Qed.

Lemma fields_set_fields_Some r f s t :
  heap s !! addr r = Some t → fields (set_fields r f s) r = f t.
Proof. intros Ht. rewrite fields_set_fields, Ht. by case_decide. Qed.

Lemma registration_refl s : registration s s.
Proof. unfold registration. split_and!; [done..|]. exists []. by rewrite app_nil_r. Qed.

Lemma registration_trans s1 s2 s3 :
  registration s1 s2 → registration s2 s3 → registration s1 s3.
Proof.
  intros (Hi & Hu & Hp & Ha & Hg & Hh & Hc & Hb & new1 & Hn1 & Hf1)
         (Hi' & Hu' & Hp' & Ha' & Hg' & Hh' & Hc' & Hb' & new2 & Hn2 & Hf2).
  unfold registration. split_and!; [congruence..| | |].
  - intros r k. by rewrite Hc', Hc.
  - intros r k env Hs. by apply Hb', Hb.
  - exists (new1 ++ new2). rewrite Hn2, Hn1, app_assoc. split; [done|].
    by apply Forall_app.
Qed.

Lemma set_fields_registration r f s :
  (∀ k t, storesByEnvCache k (f t) = storesByEnvCache k t) →
  (∀ k t env, is_Some (storesByEnv k t !! env) → is_Some (storesByEnv k (f t) !! env)) →
  registration s (set_fields r f s).
Proof.
  intros Hf Hbound. unfold registration. split_and!; [done..| | | |].
  - simpl. apply length_alter.
  - intros r' k. by apply (fields_set_fields_proj (storesByEnvCache k)).
  - intros r' k env. rewrite fields_set_fields. case_decide as Heq; [|done].
    unfold fields. rewrite <- Heq. destruct (heap s !! addr r); [apply Hbound|done].
  - exists []. by rewrite app_nil_r.
Qed.

Lemma set_storesByEnv_bound k env p k' t env' :
  is_Some (storesByEnv k' t !! env') →
  is_Some (storesByEnv k' (set_storesByEnv k <[env:=p]> t) !! env').
Proof.
  intros Hs. destruct k, k'; simpl; try done;
    apply lookup_insert_is_Some; destruct (decide (env = env')); auto.
Qed.

Lemma set_logger_registration f s : registration s (set_logger f s).
Proof. unfold registration. split_and!; [done..|]. exists []. by rewrite app_nil_r. Qed.

Lemma register_registration r op s : registration s (register r op s).
Proof.
  destruct op as [type action|env p|env p|name p|name data]; simpl.
  - unfold registerAction.
    eapply registration_trans; [apply set_logger_registration|].
    eapply registration_trans; [|apply set_fields_registration; by intros []].
    case_bool_decide; [apply set_logger_registration|apply registration_refl].
  - apply set_fields_registration; [by intros []|].
    intros. by apply set_storesByEnv_bound.
  - apply set_fields_registration; [by intros []|].
    intros. by apply set_storesByEnv_bound.
  - unfold registerPluginProvider.
    eapply registration_trans; [|apply set_fields_registration; by intros []].
    unfold registration. split_and!; [done..|].
    exists [mkClosure p (plain PlainUndefined)]. split; [done|]. by repeat constructor.
  - apply set_fields_registration; by intros [].
Qed.

Lemma run_RegOps_registration ops s : registration s (run_RegOps ops s).
Proof.
  unfold run_RegOps. revert s. induction ops as [|op ops IH]; intros s; simpl.
  - apply registration_refl.
  - eapply registration_trans; [apply register_registration|apply IH].
Qed.

(** ** Memoisation *)


Lemma registration_closures_old s s' c cl :
  registration s s' → closures s !! c = Some cl → closures s' !! c = Some cl.
Proof.
  intros (_ & _ & _ & _ & _ & _ & _ & _ & new & -> & _) Hc. by apply lookup_app_l_Some.
Qed.



Lemma storesByEnvCache_set k k' f t :
  storesByEnvCache k' (set_storesByEnvCache k f t)
  = if decide (k = k') then f (storesByEnvCache k t) else storesByEnvCache k' t.
Proof. by destruct k, k'. Qed.

Lemma storesByEnv_allocated k s this env p :
  storesByEnv k (fields s this) !! env = Some p → is_Some (heap s !! addr this).
Proof.
  unfold fields. destruct (heap s !! addr this); [eauto|].
  by destruct k.
Qed.

Lemma registration_allocated s s' a :
  registration s s' → is_Some (heap s !! a) → is_Some (heap s' !! a).
Proof.
  intros (_ & _ & _ & _ & _ & Hlen & _) Ha.
  apply lookup_lt_is_Some. rewrite Hlen. by apply lookup_lt_is_Some.
Qed.

(** [invoke] records the call and lets the client code register; then the
    client code returns a new promise, or throws. *)
Lemma invoke_eq who fn s :
  ∃ s1, registration (set_invocations (λ l, l ++ [who]) s) s1
        ∧ invoke who fn s
          = match fn with
            | mkProvider _ todo result =>
                (set_promises (λ ps, ps ++ [Pending (registryAls s1) todo result]) s1,
                 inr (length (promises s1)))
            | mkThrowingProvider _ e => (set_unkept (λ l, l ++ [who]) s1, inl e)
            end.
Proof.
  exists (run_RegOps (prov_sync fn) (set_invocations (λ l, l ++ [who]) s)).
  split; [apply run_RegOps_registration|]. by destruct fn.
Qed.



Lemma JsObject_get_client_Own {V} (o : gmap string V) k v :
  JsObject.get_client o k = Some (Own v) → o !! k = Some v.
Proof.
  unfold JsObject.get_client, JsObject.property.
  destruct (o !! k); [destruct (o !! "__proto__"); congruence|].
  destruct (o !! "__proto__"); [done|]. by destruct (JsObject.inherited k).
Qed.

Lemma JsObject_get_ordered_Own {V} (o : list (string * V)) k v :
  JsObject.get_ordered o k = Some (Own v) → JsObject.own o k = Some v.
Proof.
  unfold JsObject.get_ordered, JsObject.property.
  destruct (JsObject.own o k); [destruct (JsObject.own o "__proto__"); congruence|].
  destruct (JsObject.own o "__proto__"); [done|]. by destruct (JsObject.inherited k).
Qed.

(** The cases of [lookupOverlaidStore_body]: nothing is called and nothing
    changes, unless a provider is an own entry under [env] and the cache
    has and inherits nothing under [env]. *)
Lemma lookupOverlaidStore_body_cases k this env s :
  (lookupOverlaidStore_body k this env s).1 = s
  ∨ ∃ storeProvider,
      storesByEnv k (fields s this) !! env = Some storeProvider
      ∧ storesByEnvCache k (fields s this) !! env = None
      ∧ JsObject.inherited env = false
      ∧ lookupOverlaidStore_body k this env s
        = match invoke (CallProvider k (addr this) env) storeProvider s with
          | (s, inr newStore) =>
              (set_fields this (set_storesByEnvCache k <[env := newStore]>) s,
               Some (inr (Own newStore)))
          | (s, inl e) => (s, Some (inl e))
          end.
Proof.
  unfold lookupOverlaidStore_body.
  destruct (JsObject.get_client (storesByEnv k (fields s this)) env)
    as [[|storeProvider|member]|] eqn:Hbound;
    [by left| |by destruct (JsObject.get _ _); left|by left].
  destruct (JsObject.get (storesByEnvCache k (fields s this)) env) eqn:Hcache;
    [|by left..].
  right. exists storeProvider.
  apply JsObject_get_client_Own in Hbound.
  apply JsObject_get_Undefined in Hcache as [Hnone Hinh]. done.
Qed.



(** The cases of [call_initializer]: nothing is called and nothing
    changes, unless there is a closure whose [cached] is falsy. *)
Lemma call_initializer_cases c s :
  (call_initializer c s).1 = s
  ∨ ∃ cl,
      closures s !! c = Some cl
      ∧ Returned_truthy (cached cl) = false
      ∧ call_initializer c s
        = match invoke_initializer (CallInitializer c)
                                   (plugin_initializer (provider cl)) s with
          | (s, inr x) =>
              (set_closures (alter (λ c, mkClosure (provider c) x) c) s, Some (inr x))
          | (s, inl e) => (s, Some (inl e))
          end.
Proof.
  unfold call_initializer.
  destruct (closures s !! c) as [cl|] eqn:Hcl; [|by left].
  destruct (Returned_truthy (cached cl)) eqn:Hcached; [by left|].
  right. by exists cl.
Qed.



Lemma lookupStore_eq k this env :
  lookupStore k this env
  = overlaid ← await (lookupOverlaidStore k this env);
    if JsObject.truthy overlaid then Ret overlaid
    else match parent this with
         | Some parent => lookupStore k parent env
         | None => Ret Undefined
         end.
Proof. by destruct this. Qed.

Lemma listActions_eq this :
  listActions this
  = names ← read (λ s, JsObject.keys (pluginsByName (fields s this)));
    for_each names (λ pluginName, await (initializePlugin this pluginName));;
    inherited ← await (match parent this with
                       | Some parent => listActions parent
                       | None => Ret ∅
                       end);
    own ← read (λ s, actionsById (fields s this));
    Ret (own ∪ inherited).
Proof. by destruct this. Qed.

(** What [initializePlugin] does to the state before it suspends is what
    the closure of the binding does. *)
Lemma initializePlugin_body_cases this name s :
  (initializePlugin_body this name s).1 = s
  ∨ ∃ binding,
      JsObject.own (pluginsByName (fields s this)) name = Some binding
      ∧ (initializePlugin_body this name s).1
        = (call_initializer (initializer binding) s).1.
Proof.
  unfold initializePlugin_body.
  destruct (JsObject.get_ordered (pluginsByName (fields s this)) name)
    as [[|binding|member]|] eqn:Hget; [by left| |by left..].
  right. exists binding. split; [by apply JsObject_get_ordered_Own|].
  by destruct (call_initializer (initializer binding) s).
Qed.

(** ** Invariants of computations *)

Section Keeps.
Context (I : State → Prop) (R : State → State → Prop).
Hypothesis R_refl : ∀ s, R s s.
Hypothesis R_trans : ∀ s1 s2 s3, R s1 s2 → R s2 s3 → R s1 s3.

Lemma keeps_bind {A B} (m : Async A) (k : A → Async B) :
  keeps I R m → (∀ a, keeps I R (k a)) → keeps I R (m ≫= k).
Proof.
  intros Hm Hk. rewrite bind_unfold.
  induction m as [a|e| |f IH|p c IH|c IH] using Async_induction; simpl.
  - apply Hk.
  - constructor.
  - constructor.
  - inversion Hm as [| | |? Hf| |]; subst. constructor. intros s Hs.
    specialize (Hf s Hs). specialize (IH s). destruct (f s) as [s' m'].
    split; [apply Hf|]. split; [apply Hf|apply IH, Hf].
  - inversion Hm as [| | | |? ? Hc|]; subst. constructor. intros v. apply IH, Hc.
  - inversion Hm as [| | | | |? Hc]; subst. constructor. apply IH, Hc.
Qed.

Lemma keeps_call {A} (f : State → State * A) :
  (∀ s, I s → I (f s).1 ∧ R s (f s).1) → keeps I R (call f).
Proof.
  intros Hf. constructor. intros s Hs. specialize (Hf s Hs).
  destruct (f s) as [s' a]. split; [apply Hf|]. split; [apply Hf|constructor].
Qed.

Lemma keeps_attempt {A} (f : State → State * Completion A) :
  (∀ s, I s → I (f s).1 ∧ R s (f s).1) → keeps I R (attempt f).
Proof.
  intros Hf. constructor. intros s Hs. specialize (Hf s Hs).
  destruct (f s) as [s' [[e|a]|]]; (split; [apply Hf|]); (split; [apply Hf|constructor]).
Qed.

Lemma keeps_read {A} (f : State → A) : keeps I R (read f).
Proof. constructor. intros s Hs. split; [done|]. split; [apply R_refl|constructor]. Qed.

Lemma keeps_read_client {A} (f : State → option A) : keeps I R (read_client f).
Proof. apply keeps_attempt. intros s Hs. split; [done|apply R_refl]. Qed.

Lemma keeps_await {A} (m : Async A) : keeps I R m → keeps I R (await m).
Proof. intros. apply keeps_bind; [done|]. intros a. by repeat constructor. Qed.

Lemma keeps_for_each {A B} (l : list A) (body : A → Async B) :
  (∀ x, keeps I R (body x)) → keeps I R (for_each l body).
Proof.
  intros Hbody. induction l as [|x l IH]; simpl; [constructor|].
  apply keeps_bind; [apply Hbody|done].
Qed.

Lemma run_atomic_keeps {A} (m : Async A) s :
  keeps I R m → I s →
  I (run_atomic m s).1 ∧ R s (run_atomic m s).1 ∧ keeps I R (run_atomic m s).2.
Proof.
  revert s. induction m as [a|e| |f IH|p c IH|c IH] using Async_induction;
    intros s Hm Hs; simpl; try done.
  inversion Hm as [| | |? Hf| |]; subst. specialize (Hf s Hs). specialize (IH s).
  destruct (f s) as [s' m']. destruct Hf as (Hs' & HR & Hm').
  destruct (IH s' Hm' Hs') as (? & ? & ?). eauto.
Qed.

Hypothesis lookupOverlaidStore_body_keeps :
  ∀ k this env s,
    I s → I (lookupOverlaidStore_body k this env s).1
          ∧ R s (lookupOverlaidStore_body k this env s).1.
Hypothesis call_initializer_keeps :
  ∀ c s, I s → I (call_initializer c s).1 ∧ R s (call_initializer c s).1.

Lemma lookupOverlaidStore_keeps k this env :
  keeps I R (lookupOverlaidStore k this env).
Proof.
  unfold lookupOverlaidStore.
  apply keeps_bind; [apply keeps_attempt, lookupOverlaidStore_body_keeps|].
  intros [|p|member]; [constructor| |constructor].
  apply keeps_bind; [|intros; constructor].
  constructor. intros v. constructor.
Qed.

Lemma lookupStore_keeps k this env : keeps I R (lookupStore k this env).
Proof.
  induction this as [a|a p IH] using Registry_induction; rewrite lookupStore_eq;
    (apply keeps_bind; [apply keeps_await, lookupOverlaidStore_keeps|]);
    intros [|v|member]; simpl; try constructor; done.
Qed.

Lemma initializePlugin_keeps this name : keeps I R (initializePlugin this name).
Proof.
  unfold initializePlugin. apply keeps_bind.
  - apply keeps_attempt. intros s Hs.
    destruct (initializePlugin_body_cases this name s) as [->|(binding & _ & ->)];
      [by split|by apply call_initializer_keeps].
  - intros [[p|v]|]; [|by repeat constructor..].
    apply keeps_bind; [|intros; constructor].
    constructor. intros v. constructor.
Qed.

Lemma lookupAction_keeps this key : keeps I R (lookupAction this key).
Proof.
  assert (Hinit : ∀ this (found : Property Action),
    keeps I R (match found, parsePluginName key with
               | Undefined, Some pluginName =>
                   if truthy pluginName
                   then await (initializePlugin this pluginName);; Ret ()
                   else Ret ()
               | _, _ => Ret ()
               end)).
  { intros r [|x|member]; try constructor.
    destruct (parsePluginName key) as [n|]; [|constructor].
    destruct (truthy n); [|constructor].
    apply keeps_bind; [apply keeps_await, initializePlugin_keeps|intros; constructor]. }
  induction this as [a|a p IH] using Registry_induction;
    rewrite lookupAction_eq; cbv zeta;
    (apply keeps_bind; [apply keeps_read|]); intros found;
    (apply keeps_bind; [apply Hinit|]);
    intros _; (apply keeps_bind; [apply keeps_read|]);
    intros [|action|member]; simpl; try constructor; done.
Qed.

Lemma listActions_keeps this : keeps I R (listActions this).
Proof.
  induction this as [a|a p IH] using Registry_induction; rewrite listActions_eq;
    (apply keeps_bind; [apply keeps_read|]); intros names;
    (apply keeps_bind;
     [apply keeps_for_each; intros n; apply keeps_await, initializePlugin_keeps|]);
    intros _; (apply keeps_bind; [apply keeps_await; try done; constructor|]);
    intros inherited; (apply keeps_bind; [apply keeps_read|]);
    intros own; constructor.
Qed.

Lemma perform_keeps this c : keeps I R (perform this c).
Proof.
  destruct c; unfold perform; (apply keeps_bind; [|intros; constructor]).
  - apply lookupAction_keeps.
  - apply listActions_keeps.
  - apply lookupStore_keeps.
  - apply initializePlugin_keeps.
Qed.
End Keeps.

(** ** Interleavings *)

Lemma fields_new_Registry p s r : fields (new_Registry p s).1 r = fields s r.
Proof.
  unfold fields, new_Registry. simpl.
  destruct (decide (addr r < length (heap s))%nat) as [Hlt|Hge].
  - by rewrite lookup_app_l.
  - rewrite lookup_app_r by lia. rewrite (lookup_ge_None_2 (heap s)) by lia.
    destruct (addr r - length (heap s))%nat as [|n]; [done|].
    by rewrite lookup_cons, lookup_nil.
Qed.

Lemma fields_new_Registry_fresh p s :
  fields (new_Registry p s).1 (new_Registry p s).2 = new_Tables.
Proof.
  rewrite fields_new_Registry. unfold fields, new_Registry. simpl.
  by rewrite lookup_ge_None_2.
Qed.














(** ** Stores *)

Lemma run_lookupOverlaidStore k this env s :
  run (lookupOverlaidStore k this env) s
  = match (lookupOverlaidStore_body k this env s).2 with
    | Some (inr (Own p)) => then_ Own (settle p (lookupOverlaidStore_body k this env s).1)
    | c => completion (lookupOverlaidStore_body k this env s).1 c
    end.
Proof.
  unfold lookupOverlaidStore. rewrite run_bind, run_attempt.
  destruct (lookupOverlaidStore_body k this env s) as [s1 [[e|[|p|member]]|]];
    simpl; try done.
  destruct (settle p s1) as [[s2 [v|e]]|]; done.
Qed.

Lemma run_lookupStore k this env s :
  run (lookupStore k this env) s
  = match (lookupOverlaidStore_body k this env s).2 with
    | Some (inr (Own p)) => then_ Own (settle p (lookupOverlaidStore_body k this env s).1)
    | Some (inr Undefined) =>
        match parent this with
        | Some parent =>
            run (lookupStore k parent env) (lookupOverlaidStore_body k this env s).1
        | None => Some ((lookupOverlaidStore_body k this env s).1, Resolved Undefined)
        end
    | c => completion (lookupOverlaidStore_body k this env s).1 c
    end.
Proof.
  rewrite lookupStore_eq, run_bind, run_await, run_lookupOverlaidStore.
  destruct (lookupOverlaidStore_body k this env s) as [s1 [[e|[|p|member]]|]];
    simpl; try done.
  - by destruct (parent this).
  - destruct (settle p s1) as [[s2 [v|e]]|]; done.
Qed.

Lemma settle_registration p s s' r :
  settle p s = Some (s', r) →
  invocations s' = invocations s
  ∧ unkept s' = unkept s
  ∧ (∀ k this, storesByEnvCache k (fields s' this) = storesByEnvCache k (fields s this))
  ∧ (∀ k this env, is_Some (storesByEnv k (fields s this) !! env) →
                   is_Some (storesByEnv k (fields s' this) !! env)).
Proof.
  unfold settle. intros Hsettle.
  destruct (promises s !! p) as [[ctx todo result|result]|]; simplify_eq; [|done].
  destruct (run_RegOps_registration todo (set_registryAls ctx s))
    as (Hi & Hu & _ & _ & _ & _ & Hc & Hb & _).
  split; [exact Hi|]. split; [exact Hu|]. split; [intros k this; apply Hc|].
  intros k this env. apply Hb.
Qed.

Lemma settle_invocations p s s' r :
  settle p s = Some (s', r) → invocations s' = invocations s.
Proof. intros Hsettle. by destruct (settle_registration _ _ _ _ Hsettle) as (? & _). Qed.


Lemma settle_caches p s s' r k this :
  settle p s = Some (s', r) →
  storesByEnvCache k (fields s' this) = storesByEnvCache k (fields s this).
Proof.
  intros Hsettle. destruct (settle_registration _ _ _ _ Hsettle) as (_ & _ & Hc & _).
  apply Hc.
Qed.

Lemma settle_bound p s s' r k this env :
  settle p s = Some (s', r) →
  is_Some (storesByEnv k (fields s this) !! env) →
  is_Some (storesByEnv k (fields s' this) !! env).
Proof.
  intros Hsettle. destruct (settle_registration _ _ _ _ Hsettle) as (_ & _ & _ & Hb).
  apply Hb.
Qed.

Lemma settle_result p s : snd <$> settle p s
  = match promises s !! p with
    | Some (Pending _ _ result) | Some (Settled result) => Some result
    | None => None
    end.
Proof. unfold settle. by destruct (promises s !! p) as [[]|]. Qed.

(** The body of a lookup where a provider is an own entry under [env] and
    the cache has and inherits nothing under [env]: the provider is
    called. *)
Lemma lookupOverlaidStore_body_call k this env s storeProvider :
  storesByEnv k (fields s this) !! env = Some storeProvider →
  storesByEnvCache k (fields s this) !! env = None →
  JsObject.inherited env = false →
  lookupOverlaidStore_body k this env s
  = match invoke (CallProvider k (addr this) env) storeProvider s with
    | (s, inr newStore) =>
        (set_fields this (set_storesByEnvCache k <[env := newStore]>) s,
         Some (inr (Own newStore)))
    | (s, inl e) => (s, Some (inl e))
    end.
Proof.
  intros Hprov Hcache Henv. unfold lookupOverlaidStore_body.
  by rewrite (JsObject_get_client_own _ _ _ Hprov), JsObject_get_absent.
Qed.

Lemma lookupOverlaidStore_body_cached k this env s storeProvider p :
  storesByEnv k (fields s this) !! env = Some storeProvider →
  storesByEnvCache k (fields s this) !! env = Some p →
  lookupOverlaidStore_body k this env s = (s, Some (inr (Own p))).
Proof.
  intros Hprov Hcache. unfold lookupOverlaidStore_body.
  by rewrite (JsObject_get_client_own _ _ _ Hprov), (JsObject_get_own _ _ _ Hcache).
Qed.


(** If the provider throws, the lookup is rejected with what it threw,
    and the slot stays empty. *)
Lemma run_lookupStore_throws k this env s sync e :
  storesByEnv k (fields s this) !! env = Some (mkThrowingProvider sync e) →
  storesByEnvCache k (fields s this) !! env = None →
  JsObject.inherited env = false →
  ∃ s', run (lookupStore k this env) s = Some (s', Rejected e)
        ∧ invocations s' = invocations s ++ [CallProvider k (addr this) env]
        ∧ unkept s' = unkept s ++ [CallProvider k (addr this) env]
        ∧ storesByEnvCache k (fields s' this) !! env = None
        ∧ is_Some (storesByEnv k (fields s' this) !! env).
Proof.
  intros Hprov Hcache Henv.
  rewrite run_lookupStore, (lookupOverlaidStore_body_call _ _ _ _ _ Hprov) by done.
  destruct (invoke_eq (CallProvider k (addr this) env) (mkThrowingProvider sync e) s)
    as (s1 & Hreg & ->).
  cbv beta iota. cbn [fst snd].
  pose proof Hreg as (Hi & Hu & _ & _ & _ & _ & Hc & Hb & _).
  eexists. split; [done|]. split; [by simpl; rewrite Hi|].
  split; [by simpl; rewrite Hu|]. split.
  - change (fields (set_unkept _ s1) this) with (fields s1 this).
    rewrite (Hc this k). exact Hcache.
  - apply (Hb this k env). change (is_Some (storesByEnv k (fields s this) !! env)).
    by rewrite Hprov.
Qed.

(** A lookup where a provider is bound locally and the slot is filled
    completes as the promise in the slot does. *)
Lemma run_lookupStore_cached k this env s prov p :
  storesByEnv k (fields s this) !! env = Some prov →
  storesByEnvCache k (fields s this) !! env = Some p →
  run (lookupStore k this env) s = then_ Own (settle p s).
Proof.
  intros Hprov Hcache.
  by rewrite run_lookupStore, (lookupOverlaidStore_body_cached _ _ _ _ prov p).
Qed.

Lemma run_lookupStore_unbound k this env s :
  JsObject.get_client (storesByEnv k (fields s this)) env = Some Undefined →
  run (lookupStore k this env) s
  = match parent this with
    | Some parent => run (lookupStore k parent env) s
    | None => Some (s, Resolved Undefined)
    end.
Proof.
  intros Hprov. rewrite run_lookupStore. unfold lookupOverlaidStore_body.
  by rewrite Hprov.
Qed.




Lemma storesByEnvCache_allocated k s this env p :
  storesByEnvCache k (fields s this) !! env = Some p → is_Some (heap s !! addr this).
Proof.
  unfold fields. destruct (heap s !! addr this); [eauto|].
  by destruct k.
Qed.

Lemma storesByEnv_set k k' f t :
  storesByEnv k' (set_storesByEnv k f t)
  = if decide (k = k') then f (storesByEnv k t) else storesByEnv k' t.
Proof. by destruct k, k'. Qed.

Lemma registerStore_bound k this env p s :
  is_Some (heap s !! addr this) →
  storesByEnv k (fields (registerStore k this env p s) this) !! env = Some p.
Proof.
  intros [t Ht]. unfold registerStore.
  rewrite (fields_set_fields_Some _ _ _ t Ht), storesByEnv_set, decide_True by done.
  apply lookup_insert_eq.
Qed.

Lemma registerStore_caches k this env p s k' r :
  storesByEnvCache k' (fields (registerStore k this env p s) r)
  = storesByEnvCache k' (fields s r).
Proof.
  unfold registerStore. apply (fields_set_fields_proj (storesByEnvCache k')).
  intros t. by destruct k, k'.
Qed.

(** C9. Once the cache slot of a node for an environment holds a promise,
    registering another provider for that environment on the node changes
    nothing to the lookups that follow: the lookup completes as the promise
    in the slot does, which is as it did before the registration; it calls
    no provider; and it leaves the slot filled with that promise and a
    provider bound, so that the lookup after it does the same. *)
Theorem cached_store_outlives_registration k this env s cached provider2 :
  storesByEnvCache k (fields s this) !! env = Some cached →
  let s2 := registerStore k this env provider2 s in
  run (lookupStore k this env) s2 = then_ Own (settle cached s2)
  ∧ snd <$> settle cached s2 = snd <$> settle cached s
  ∧ ∀ s' r,
      run (lookupStore k this env) s2 = Some (s', r) →
      invocations s' = invocations s
      ∧ storesByEnvCache k (fields s' this) !! env = Some cached
      ∧ run (lookupStore k this env) s' = then_ Own (settle cached s')
      ∧ snd <$> settle cached s' = snd <$> settle cached s.
Proof.
  intros Hcache s2.
  assert (Hbound : storesByEnv k (fields s2 this) !! env = Some provider2).
  { apply registerStore_bound. by eapply storesByEnvCache_allocated. }
  assert (Hslot : storesByEnvCache k (fields s2 this) !! env = Some cached).
  { unfold s2. by rewrite registerStore_caches. }
  assert (Hrun : run (lookupStore k this env) s2 = then_ Own (settle cached s2)).
  { by apply (run_lookupStore_cached _ _ _ _ provider2). }
  split; [done|]. split; [by rewrite !settle_result|].
  intros s' r. rewrite Hrun. unfold then_. intros Hsettle.
  destruct (settle cached s2) as [[s3 r3]|] eqn:Hs3; simplify_eq/=.
  assert (Hslot' : storesByEnvCache k (fields s' this) !! env = Some cached).
  { by rewrite (settle_caches _ _ _ _ k this Hs3). }
  split; [by rewrite (settle_invocations _ _ _ _ Hs3)|]. split; [done|]. split.
  - destruct (settle_bound _ _ _ _ k this env Hs3) as [prov' Hprov'];
      [by rewrite Hbound|].
    by apply (run_lookupStore_cached _ _ _ _ prov').
  - rewrite !settle_result.
    unfold settle in Hs3.
    destruct (promises s2 !! cached) as [[ctx todo result|result]|] eqn:Hp;
      simplify_eq/=.
    + change (promises (registerStore k this env provider2 s)) with (promises s) in Hp.
      rewrite Hp. rewrite list_lookup_insert_eq; [done|].
      destruct (run_RegOps_registration todo (set_registryAls ctx s2))
        as (_ & _ & -> & _).
      by eapply lookup_lt_Some.
    + done.
Qed.

Lemma cached_store_outlives_registration_witness :
  let s := state_after (lookupTraceStore root "dev")
             (registerTraceStore root "dev" (constant 1) loaded) in
  let s2 := registerTraceStore root "dev" (constant 2) s in
  storesByEnvCache TraceStore (fields s root) !! "dev" = Some 0
  ∧ storesByEnv TraceStore (fields s2 root) !! "dev" = Some (constant 2)
  ∧ snd <$> run (lookupTraceStore root "dev") s2 = Some (Resolved (Own 1)).
Proof.
  intros s s2.
  assert (Hslot : storesByEnvCache TraceStore (fields s root) !! "dev" = Some 0)
    by (vm_compute; reflexivity).
  split; [exact Hslot|]. split; [vm_compute; reflexivity|].
  pose proof (cached_store_outlives_registration TraceStore root "dev" s 0
                (constant 2) Hslot) as Hrun.
  cbv zeta in Hrun. destruct Hrun as [Hrun _].
  unfold s2, lookupTraceStore, registerTraceStore. rewrite Hrun.
  vm_compute. reflexivity.
Defined.

(** ** Plugins and schemas *)

Lemma run_initializePlugin this name s :
  run (initializePlugin this name) s
  = match (initializePlugin_body this name s).2 with
    | Some (inr (Some (promise p))) =>
        then_ Some (settle p (initializePlugin_body this name s).1)
    | Some (inr (Some (plain v))) =>
        Some ((initializePlugin_body this name s).1, Resolved (Plain_value v))
    | Some (inr None) => Some ((initializePlugin_body this name s).1, Resolved None)
    | Some (inl e) => Some ((initializePlugin_body this name s).1, Rejected e)
    | None => None
    end.
Proof.
  unfold initializePlugin. rewrite run_bind, run_attempt.
  destruct (initializePlugin_body this name s) as [s1 [[e|[[p|v]|]]|]]; simpl; try done.
  destruct (settle p s1) as [[s2 [v|e]]|]; done.
Qed.

Lemma initializePlugin_body_own this name s binding :
  JsObject.own (pluginsByName (fields s this)) name = Some binding →
  initializePlugin_body this name s
  = ((call_initializer (initializer binding) s).1,
     match (call_initializer (initializer binding) s).2 with
     | Some (inr x) => Some (inr (Some x))
     | Some (inl e) => Some (inl e)
     | None => None
     end).
Proof.
  intros Hown. unfold initializePlugin_body.
  rewrite (JsObject_get_ordered_own _ _ _ Hown).
  by destruct (call_initializer (initializer binding) s).
Qed.


Lemma lookupPlugin_eq this name s :
  lookupPlugin this name s
  = (found ← JsObject.get_ordered (pluginsByName (fields s this)) name;
     if JsObject.truthy found then Some found
     else match parent this with
          | Some parent => lookupPlugin parent name s
          | None => Some Undefined
          end).
Proof. by destruct this. Qed.

Lemma lookupSchema_eq this name s :
  lookupSchema this name s
  = (found ← JsObject.get_client (schemasByName (fields s this)) name;
     if JsObject.truthy found then Some found
     else match parent this with
          | Some parent => lookupSchema parent name s
          | None => Some Undefined
          end).
Proof. by destruct this. Qed.




(** ** [registerAction] *)

Lemma actionsById_allocated s this key action :
  actionsById (fields s this) !! key = Some action → is_Some (heap s !! addr this).
Proof. unfold fields. by destruct (heap s !! addr this); [eauto|]. Qed.

(** A local hit is returned at once. *)
Lemma run_lookupAction_own this key s action :
  actionsById (fields s this) !! key = Some action →
  run (lookupAction this key) s = Some (s, Resolved (Own action)).
Proof.
  intros Hown. rewrite run_lookupAction, (JsObject_get_own _ _ _ Hown).
  unfold recheck. by rewrite (JsObject_get_own _ _ _ Hown).
Qed.

(** C8. Registering an action whose key [/<type>/<name>] the node already
    has goes through: the registration is logged, then a warning, and the
    entry is replaced, so that [lookupAction] on the node finds the new
    action under the key; the other entries stay. *)
Theorem registerAction_overwrites_with_warning this type action s previous :
  let key := "/" +:+ ActionType_string type +:+ "/" +:+ action_name action in
  let s2 := registerAction this type action s in
  actionsById (fields s this) !! key = Some previous →
  logger s2
  = logger s
      ++ [Info ("Registering " +:+ ActionType_string type +:+ ": " +:+ action_name action);
          Warn ("WARNING: " +:+ key +:+ " already has an entry in the registry. Overwriting.")]
  ∧ actionsById (fields s2 this) !! key = Some action
  ∧ run (lookupAction this key) s2 = Some (s2, Resolved (Own action))
  ∧ ∀ key', key' ≠ key →
      actionsById (fields s2 this) !! key' = actionsById (fields s this) !! key'.
Proof.
  intros key s2 Hprevious.
  destruct (actionsById_allocated _ _ _ _ Hprevious) as [t Ht].
  assert (Hfields : fields s2 this = set_actionsById <[key:=action]> t).
  { unfold s2, registerAction. fold key.
    apply fields_set_fields_Some. by case_bool_decide. }
  assert (Hnew : actionsById (fields s2 this) !! key = Some action).
  { rewrite Hfields. simpl. apply lookup_insert_eq. }
  split; [|split; [done|split]].
  - unfold s2, registerAction. fold key.
    change (fields (set_logger ?f s) this) with (fields s this).
    rewrite bool_decide_eq_true_2 by (by rewrite Hprevious).
    simpl. by rewrite <- app_assoc.
  - by apply run_lookupAction_own.
  - intros key' Hne. rewrite Hfields. simpl. rewrite lookup_insert_ne by done.
    unfold fields. by rewrite Ht.
Qed.

Lemma registerAction_overwrites_with_warning_witness :
  let s := registerAction root tool (mkAction "search" 1) loaded in
  let s2 := registerAction root tool (mkAction "search" 2) s in
  actionsById (fields s root) !! "/tool/search" = Some (mkAction "search" 1)
  ∧ logger s2
    = logger s
        ++ [Info "Registering tool: search";
            Warn "WARNING: /tool/search already has an entry in the registry. Overwriting."]
  ∧ run (lookupAction root "/tool/search") s2 = Some (s2, Resolved (Own (mkAction "search" 2))).
Proof.
  intros s s2.
  assert (Hprevious : actionsById (fields s root) !! "/tool/search"
                      = Some (mkAction "search" 1)) by (vm_compute; reflexivity).
  split; [exact Hprevious|].
  destruct (registerAction_overwrites_with_warning root tool (mkAction "search" 2) s
              (mkAction "search" 1) Hprevious) as (Hlog & _ & Hrun & _).
  split; [exact Hlog|exact Hrun].
Defined.

(** ** [lookupPlugin] *)

(** C2, where the code departs from it.  The exported [lookupPlugin] calls
    [lookupFlowStateStore]: with a plugin registered on the current
    registry, the method finds its binding and the exported function
    resolves to undefined. *)
Theorem exported_lookupPlugin_asks_flow_state_stores :
  (∀ name, Exported.lookupPlugin name = Exported.lookupFlowStateStore name)
  ∧ let s := Exported.registerPluginProvider "myplugin"
               (mkPluginProvider "myplugin" (AsyncInitializer (constant 9))) loaded in
    lookupPlugin (getRegistryInstance s) "myplugin" s
      = Some (Own (mkPluginBinding "myplugin" 0))
    ∧ run (Exported.lookupPlugin "myplugin") s = Some (s, Resolved Undefined).
Proof. split; [done|]. split; vm_compute; reflexivity. Qed.

(** ** [listActions] *)

Lemma index_keys_split ks :
  (JsObject.index_keys ks).*2 ++ filter (λ k, JsObject.array_index k = None) ks ≡ₚ ks.
Proof.
  induction ks as [|k ks IH]; [done|].
  unfold JsObject.index_keys in *. simpl. rewrite filter_cons.
  destruct (JsObject.array_index k) as [n|] eqn:Hk; simpl.
  - apply perm_skip, IH.
  - rewrite <- Permutation_middle. apply perm_skip, IH.
Qed.

Lemma JsObject_keys_perm {V} (o : list (string * V)) :
  JsObject.keys o ≡ₚ JsObject.own_names o.
Proof.
  unfold JsObject.keys. rewrite merge_sort_Permutation. apply index_keys_split.
Qed.

Lemma JsObject_own_is_Some {V} (o : list (string * V)) k :
  is_Some (JsObject.own o k) ↔ k ∈ o.*1.
Proof.
  unfold JsObject.own. induction o as [|[k0 v0] o IH]; simpl.
  - split; [by intros [? ?]|by intros ?%elem_of_nil].
  - destruct (bool_decide_reflect (k0 = k)) as [->|Hne]; simpl.
    + split; [intros _; apply list_elem_of_here|eauto].
    + rewrite IH. split; [apply list_elem_of_further|].
      intros [?|?]%elem_of_cons; [congruence|done].
Qed.

(** [Object.keys] lists the names of the own properties; [__proto__] is
    none of them. *)
Lemma JsObject_keys_registered {V} (o : list (string * V)) k :
  k ∈ JsObject.keys o ↔ is_Some (JsObject.own o k) ∧ k ≠ "__proto__".
Proof.
  rewrite JsObject_keys_perm, JsObject_own_is_Some. unfold JsObject.own_names.
  rewrite list_elem_of_filter. tauto.
Qed.

Lemma run_for_each_await {A B} (l : list A) (body : A → Async B) s :
  run (for_each l (λ x, await (body x))) s = run (for_each l body) s.
Proof.
  revert s. induction l as [|x l IH]; intros s; simpl; [done|].
  change (run (await (body x) ≫= (λ _, for_each l (λ x, await (body x)))) s
          = run (body x ≫= (λ _, for_each l body)) s).
  rewrite !run_bind, run_await. unfold and_then.
  destruct (run (body x) s) as [[s' [b|e]]|]; simpl; [apply IH|done|done].
Qed.

(** What a call that nothing interleaves with keeps, when its
    synchronous segments and the settlements it waits for keep it. *)
Lemma run_keeps (I : State → Prop) (R : State → State → Prop) {A}
    (m : Async A) s s' res :
  (∀ s, R s s) →
  (∀ s1 s2 s3, R s1 s2 → R s2 s3 → R s1 s3) →
  (∀ p s s' r, I s → settle p s = Some (s', r) → I s' ∧ R s s') →
  keeps I R m → I s → run m s = Some (s', res) → I s' ∧ R s s'.
Proof.
  intros Hrefl Htrans Hsettle. revert s.
  induction m as [a|e| |f IH|p k IH|k IH] using Async_induction;
    intros s Hm Hs Hrun; simpl in Hrun.
  - by simplify_eq.
  - by simplify_eq.
  - done.
  - inversion Hm as [| | |? Hf| |]; subst. specialize (Hf s Hs). specialize (IH s).
    destruct (f s) as [s1 m1]. destruct Hf as (Hs1 & HR & Hm1).
    destruct (IH s1 Hm1 Hs1 Hrun) as [? ?]. eauto.
  - inversion Hm as [| | | |? ? Hk|]; subst.
    destruct (settle p s) as [[s1 [v|e]]|] eqn:Hp; simplify_eq.
    + destruct (Hsettle _ _ _ _ Hs Hp) as [Hs1 HR].
      destruct (IH v s1 (Hk v) Hs1 Hrun) as [? ?]. eauto.
    + by eapply Hsettle.
  - inversion Hm as [| | | | |? Hk]; subst. by apply IH.
Qed.

(** [invoke_initializer], with the state after the registrations the
    initialiser makes before it returns. *)
Lemma invoke_initializer_unfold who fn s :
  invoke_initializer who fn s
  = let s1 := run_RegOps (init_sync_ops fn) (set_invocations (λ l, l ++ [who]) s) in
    match fn with
    | AsyncInitializer (mkProvider _ todo result) =>
        (set_promises (λ ps, ps ++ [Pending (registryAls s1) todo result]) s1,
         inr (promise (length (promises s1))))
    | AsyncInitializer (mkThrowingProvider _ e) =>
        (set_unkept (λ l, l ++ [who]) s1, inl e)
    | SyncInitializer _ v =>
        (if Returned_truthy (plain v) then s1
         else set_unkept (λ l, l ++ [who]) s1, inr (plain v))
    end.
Proof. by destruct fn as [[]|]. Qed.

Lemma invoke_unfold who fn s :
  invoke who fn s
  = let s1 := run_RegOps (prov_sync fn) (set_invocations (λ l, l ++ [who]) s) in
    match fn with
    | mkProvider _ todo result =>
        (set_promises (λ ps, ps ++ [Pending (registryAls s1) todo result]) s1,
         inr (length (promises s1)))
    | mkThrowingProvider _ e => (set_unkept (λ l, l ++ [who]) s1, inl e)
    end.
Proof. by destruct fn. Qed.

(** *** Closures and bindings during a call *)

Lemma rebinding_refl s : rebinding s s.
Proof.
  split; [|split]; [|done|].
  - intros c cl Hc. eauto.
  - intros r name b Hb. by left.
Qed.

Lemma rebinding_length s s' :
  rebinding s s' → (length (closures s) ≤ length (closures s'))%nat.
Proof.
  intros (Hclosures & _).
  destruct (decide (length (closures s) ≤ length (closures s'))%nat) as [|Hlt];
    [done|].
  destruct (lookup_lt_is_Some_2 (closures s) (length (closures s'))) as [cl Hcl];
    [lia|].
  destruct (Hclosures _ _ Hcl) as (cl' & Hcl' & _).
  apply lookup_lt_Some in Hcl'. lia.
Qed.

Lemma rebinding_trans s1 s2 s3 : rebinding s1 s2 → rebinding s2 s3 → rebinding s1 s3.
Proof.
  intros H12 H23. pose proof (rebinding_length _ _ H12) as Hlen.
  destruct H12 as (Hc12 & Hi12 & Ht12), H23 as (Hc23 & Hi23 & Ht23).
  split; [|split].
  - intros c cl Hc. destruct (Hc12 c cl Hc) as (cl2 & Hc2 & Hp2 & Hd2).
    destruct (Hc23 c cl2 Hc2) as (cl3 & Hc3 & Hp3 & Hd3).
    exists cl3. split; [done|]. split; [congruence|].
    destruct Hd3 as [Hd3|Hd3]; [|by right].
    destruct Hd2 as [Hd2|Hd2]; [left; congruence|right; by apply Hi23].
  - intros i Hi. by apply Hi23, Hi12.
  - intros r name b Hb. destruct (Ht12 _ _ _ Hb) as [Hb2|(b2 & Hb2 & Hnew)].
    + destruct (Ht23 _ _ _ Hb2) as [Hb3|(b3 & Hb3 & Hnew3)]; [by left|].
      right. exists b3. split; [done|lia].
    + right. destruct (Ht23 _ _ _ Hb2) as [Hb3|(b3 & Hb3 & Hnew3)].
      * by exists b2.
      * exists b3. split; [done|lia].
Qed.

(** A step that adds closures and calls and changes no [cached]. *)
Lemma rebinding_intro s s' new more :
  closures s' = closures s ++ new →
  invocations s' = invocations s ++ more →
  (∀ r name b,
     JsObject.own (pluginsByName (fields s r)) name = Some b →
     JsObject.own (pluginsByName (fields s' r)) name = Some b
     ∨ ∃ b', JsObject.own (pluginsByName (fields s' r)) name = Some b'
             ∧ (length (closures s) ≤ initializer b')%nat) →
  rebinding s s'.
Proof.
  intros Hc Hi Ht. split; [|split; [|done]].
  - intros c cl Hcl. exists cl. rewrite Hc. split; [|by eauto].
    by apply lookup_app_l_Some.
  - intros i Hin. rewrite Hi. apply elem_of_app. by left.
Qed.

Lemma register_quiet r op s :
  registers_plugin op = false →
  closures (register r op s) = closures s
  ∧ promises (register r op s) = promises s
  ∧ invocations (register r op s) = invocations s
  ∧ ∀ r', pluginsByName (fields (register r op s) r') = pluginsByName (fields s r').
Proof.
  intros Hop. destruct op as [type action|env p|env p|name p|name data];
    simplify_eq/=.
  - unfold registerAction. split; [by case_bool_decide|].
    split; [by case_bool_decide|]. split; [by case_bool_decide|]. intros r'.
    rewrite (fields_set_fields_proj pluginsByName) by (by intros []).
    by case_bool_decide.
  - split; [done|]. split; [done|]. split; [done|]. intros r'.
    apply (fields_set_fields_proj pluginsByName). by intros [].
  - split; [done|]. split; [done|]. split; [done|]. intros r'.
    apply (fields_set_fields_proj pluginsByName). by intros [].
  - split; [done|]. split; [done|]. split; [done|]. intros r'.
    apply (fields_set_fields_proj pluginsByName). by intros [].
Qed.

Lemma register_rebinding r op s : rebinding s (register r op s).
Proof.
  destruct (registers_plugin op) eqn:Hop.
  - destruct op as [type action|env p|env p|name p|name data]; simplify_eq/=.
    apply (rebinding_intro _ _ [mkClosure p (plain PlainUndefined)] []);
      [done|by rewrite app_nil_r|].
    intros r' name' b Hb. unfold registerPluginProvider. rewrite fields_set_fields.
    case_decide as Haddr; [|by left]. simpl.
    unfold fields in Hb. rewrite <- Haddr in Hb.
    destruct (heap s !! addr r) as [t|]; simpl in *; [|done].
    rewrite JsObject_own_set. case_decide as Hname; [|by left].
    right. eexists. split; [done|]. simpl. lia.
  - destruct (register_quiet r op s Hop) as (Hc & Hp & Hi & Ht).
    apply (rebinding_intro _ _ [] []); [by rewrite app_nil_r..|].
    intros r' name b Hb. left. by rewrite Ht.
Qed.

Lemma run_RegOps_rebinding ops s : rebinding s (run_RegOps ops s).
Proof.
  unfold run_RegOps. revert s. induction ops as [|op ops IH]; intros s; simpl.
  - apply rebinding_refl.
  - eapply rebinding_trans; [apply register_rebinding|apply IH].
Qed.

(** The client code called as [who] has been called and has made its
    first registrations. *)
Lemma called_rebinding who ops s :
  rebinding s (run_RegOps ops (set_invocations (λ l, l ++ [who]) s))
  ∧ who ∈ invocations (run_RegOps ops (set_invocations (λ l, l ++ [who]) s)).
Proof.
  pose proof (run_RegOps_rebinding ops (set_invocations (λ l, l ++ [who]) s)) as Hops.
  assert (Hcall : rebinding s (set_invocations (λ l, l ++ [who]) s)).
  { apply (rebinding_intro _ _ [] [who]); [by rewrite app_nil_r|done|]. by left. }
  split; [by eapply rebinding_trans|].
  destruct Hops as (_ & Hmono & _). apply Hmono. simpl.
  apply elem_of_app. right. apply list_elem_of_here.
Qed.

Lemma call_initializer_rebinding c s : rebinding s (call_initializer c s).1.
Proof.
  destruct (call_initializer_cases c s) as [->|(cl & Hcl & Hcached & ->)];
    [apply rebinding_refl|].
  rewrite invoke_initializer_unfold. cbv zeta.
  destruct (called_rebinding (CallInitializer c)
              (init_sync_ops (plugin_initializer (provider cl))) s)
    as [Hre Hcalled].
  set (s1 := run_RegOps _ _) in *.
  assert (Halter : ∀ x, rebinding s (set_closures
                     (alter (λ c, mkClosure (provider c) x) c) s1)).
  { intros x. pose proof (rebinding_length _ _ Hre) as Hlen.
    destruct Hre as (Hc & Hi & Ht). split; [|split; [exact Hi|]].
    - intros c0 cl0 Hcl0. destruct (Hc c0 cl0 Hcl0) as (cl1 & Hcl1 & Hp1 & Hd1).
      simpl. destruct (decide (c = c0)) as [<-|Hne].
      + rewrite list_lookup_alter_eq, Hcl1. simpl. eauto.
      + rewrite list_lookup_alter_ne by done. eauto.
    - intros r name b Hb. destruct (Ht r name b Hb) as [?|(b' & ? & ?)];
        [by left|right]. by exists b'. }
  destruct (plugin_initializer (provider cl)) as [[sync todo result|sync e]|sync v];
    cbn [fst]; [apply Halter|exact Hre|].
  destruct (Returned_truthy (plain v)); apply Halter.
Qed.

Lemma settle_rebinding p s s' r : settle p s = Some (s', r) → rebinding s s'.
Proof.
  unfold settle. intros Hsettle.
  destruct (promises s !! p) as [[ctx todo result|result]|]; simplify_eq;
    [|apply rebinding_refl].
  apply (run_RegOps_rebinding todo (set_registryAls ctx s)).
Qed.

Lemma listActions_rebinding this s s' res :
  run (listActions this) s = Some (s', res) → rebinding s s'.
Proof.
  intros Hrun.
  eapply (run_keeps (λ _, True) rebinding);
    [apply rebinding_refl|apply rebinding_trans| | |done|exact Hrun].
  - intros p s0 s1 r _ Hsettle. split; [done|by eapply settle_rebinding].
  - apply listActions_keeps; [apply rebinding_refl|]. intros c s0 _.
    split; [done|apply call_initializer_rebinding].
Qed.

Lemma initializePlugin_rebinding this name s s' res :
  run (initializePlugin this name) s = Some (s', res) → rebinding s s'.
Proof.
  intros Hrun.
  eapply (run_keeps (λ _, True) rebinding);
    [apply rebinding_refl|apply rebinding_trans| | |done|exact Hrun].
  - intros p s0 s1 r _ Hsettle. split; [done|by eapply settle_rebinding].
  - apply initializePlugin_keeps; [apply rebinding_refl|]. intros c s0 _.
    split; [done|apply call_initializer_rebinding].
Qed.

(** A closure that is called holds something truthy, or calls its
    initialiser. *)
Lemma call_initializer_called c s cl :
  closures s !! c = Some cl →
  Returned_truthy (cached cl) = true
  ∨ CallInitializer c ∈ invocations (call_initializer c s).1.
Proof.
  intros Hcl.
  destruct (Returned_truthy (cached cl)) eqn:Hcached; [by left|right].
  unfold call_initializer. rewrite Hcl, Hcached.
  rewrite invoke_initializer_unfold. cbv zeta.
  destruct (called_rebinding (CallInitializer c)
              (init_sync_ops (plugin_initializer (provider cl))) s) as [_ Hin].
  destruct (plugin_initializer (provider cl)) as [[sync todo result|sync e]|sync v];
    cbn [fst]; try done.
  by destruct (Returned_truthy (plain v)).
Qed.

(** After [initializePlugin], the closure of the plugin held something
    truthy or its initialiser has been called. *)
Lemma initializePlugin_called this name s s' res binding cl :
  run (initializePlugin this name) s = Some (s', res) →
  JsObject.own (pluginsByName (fields s this)) name = Some binding →
  closures s !! initializer binding = Some cl →
  Returned_truthy (cached cl) = true
  ∨ CallInitializer (initializer binding) ∈ invocations s'.
Proof.
  intros Hrun Hbinding Hcl.
  destruct (call_initializer_called (initializer binding) s cl Hcl) as [?|Hcalled];
    [by left|right].
  rewrite run_initializePlugin, (initializePlugin_body_own _ _ _ _ Hbinding) in Hrun.
  cbn [fst snd] in Hrun.
  destruct (call_initializer (initializer binding) s) as [s1 [[e|[p|v]]|]];
    simpl in *; simplify_eq; try done.
  unfold then_ in Hrun.
  destruct (settle p s1) as [[s2 r2]|] eqn:Hsettle; simplify_eq/=.
  by rewrite (settle_invocations _ _ _ _ Hsettle).
Qed.

(** A binding that was replaced stays replaced: the bindings made later
    have closures made later. *)
Lemma rebinding_replaced s s1 s' r name b' :
  rebinding s s1 → rebinding s1 s' →
  JsObject.own (pluginsByName (fields s1 r)) name = Some b' →
  (length (closures s) ≤ initializer b')%nat →
  ∃ b'', JsObject.own (pluginsByName (fields s' r)) name = Some b''
         ∧ (length (closures s) ≤ initializer b'')%nat.
Proof.
  intros H01 H1 Hb' Hnew. pose proof (rebinding_length _ _ H01) as Hlen.
  destruct H1 as (_ & _ & Ht). destruct (Ht _ _ _ Hb') as [?|(b'' & ? & ?)].
  - by exists b'.
  - exists b''. split; [done|lia].
Qed.

(** After the loop of [listActions] has gone through [names]: the
    closure of a plugin the node had under one of these names has been
    called, unless the name has been registered again. *)
Lemma for_each_initializePlugin_called this names s s' :
  run (for_each names (initializePlugin this)) s = Some (s', Resolved ()) →
  rebinding s s'
  ∧ ∀ name binding cl,
      name ∈ names →
      JsObject.own (pluginsByName (fields s this)) name = Some binding →
      closures s !! initializer binding = Some cl →
      Returned_truthy (cached cl) = true
      ∨ CallInitializer (initializer binding) ∈ invocations s'
      ∨ ∃ b', JsObject.own (pluginsByName (fields s' this)) name = Some b'
              ∧ (length (closures s) ≤ initializer b')%nat.
Proof.
  revert s. induction names as [|n names IH]; intros s Hrun.
  - simpl in Hrun. simplify_eq. split; [apply rebinding_refl|].
    by intros name binding cl ?%elem_of_nil.
  - change (for_each (n :: names) (initializePlugin this))
      with (initializePlugin this n ≫= λ _, for_each names (initializePlugin this))
      in Hrun.
    rewrite run_bind in Hrun. unfold and_then in Hrun.
    destruct (run (initializePlugin this n) s) as [[s1 [v|e]]|] eqn:Hn; simplify_eq/=.
    pose proof (initializePlugin_rebinding _ _ _ _ _ Hn) as Hre1.
    destruct (IH s1 Hrun) as (Hre' & Hran).
    split; [by eapply rebinding_trans|].
    intros name binding cl Hname Hbinding Hcl.
    pose proof Hre' as (_ & Hcalls' & _).
    apply elem_of_cons in Hname as [->|Hname].
    + destruct (initializePlugin_called _ _ _ _ _ _ _ Hn Hbinding Hcl)
        as [?|Hcalled]; [by left|right; left]. by apply Hcalls'.
    + pose proof Hre1 as (Hclosures1 & _ & Htables1).
      destruct (Htables1 _ _ _ Hbinding) as [Hstays|(b' & Hb' & Hnew)].
      * destruct (Hclosures1 _ _ Hcl) as (cl1 & Hcl1 & Hp1 & Hd1).
        destruct (Hran name binding cl1 Hname Hstays Hcl1)
          as [Htruthy|[Hcalled|(b' & Hb' & Hnew)]].
        -- destruct Hd1 as [Hsame|Hcalled]; [left; by rewrite <- Hsame|].
           right; left. by apply Hcalls'.
        -- by right; left.
        -- right; right. exists b'. split; [done|].
           pose proof (rebinding_length _ _ Hre1). lia.
      * right; right. by eapply rebinding_replaced.
Qed.

(** C5, as amended.  [listActions] runs [initializePlugin] on the node
    for every name [Object.keys(pluginsByName)] has at the time of the
    call, one after the other (a rejection ends the call); then it takes
    the parent's [listActions()], nothing when there is no parent; then it
    returns the local actions as they are now together with the parent's,
    the local entry under a key both have.  The names are those of the
    plugins registered on the node, but for a plugin registered under
    [__proto__].  When the call resolves, the closure of every plugin the
    node had at the call under another name has been called (it held a
    truthy [cached], or it has called its initialiser), unless the name
    has been registered again on the node since. *)
Theorem listActions_initialises_then_merges this s :
  run (listActions this) s
  = and_then
      (run (for_each (JsObject.keys (pluginsByName (fields s this)))
                     (initializePlugin this)) s)
      (λ _ s1,
         and_then
           (match parent this with
            | Some parent => run (listActions parent) s1
            | None => Some (s1, Resolved ∅)
            end)
           (λ inherited s2,
              Some (s2, Resolved (actionsById (fields s2 this) ∪ inherited))))
  ∧ (∀ name,
       name ∈ JsObject.keys (pluginsByName (fields s this))
       ↔ is_Some (JsObject.own (pluginsByName (fields s this)) name)
         ∧ name ≠ "__proto__")
  ∧ (∀ (own inherited : gmap string Action) key,
       (own ∪ inherited) !! key
       = match own !! key with
         | Some action => Some action
         | None => inherited !! key
         end)
  ∧ (∀ s' actions,
       run (listActions this) s = Some (s', Resolved actions) →
       ∀ name binding cl,
         name ≠ "__proto__" →
         JsObject.own (pluginsByName (fields s this)) name = Some binding →
         closures s !! initializer binding = Some cl →
         Returned_truthy (cached cl) = true
         ∨ CallInitializer (initializer binding) ∈ invocations s'
         ∨ JsObject.own (pluginsByName (fields s' this)) name ≠ Some binding).
Proof.
  assert (Hrun : run (listActions this) s
    = and_then
        (run (for_each (JsObject.keys (pluginsByName (fields s this)))
                       (initializePlugin this)) s)
        (λ _ s1,
           and_then
             (match parent this with
              | Some parent => run (listActions parent) s1
              | None => Some (s1, Resolved ∅)
              end)
             (λ inherited s2,
                Some (s2, Resolved (actionsById (fields s2 this) ∪ inherited))))).
  { rewrite listActions_eq, run_bind, run_read, and_then_Resolved.
    rewrite run_bind, run_for_each_await. unfold and_then at 1 3.
    destruct (run (for_each _ (initializePlugin this)) s) as [[s1 [[]|e]]|];
      simpl; [|done|done].
    rewrite run_bind, run_await.
    destruct (parent this) as [p|]; [|done].
    unfold and_then.
    destruct (run (listActions p) s1) as [[s2 [inherited|e]]|]; simpl; done. }
  split; [done|]. split; [|split].
  - intros name. apply JsObject_keys_registered.
  - intros own inherited key. rewrite lookup_union.
    destruct (own !! key), (inherited !! key); done.
  - intros s' actions Hresolved name binding cl Hname Hbinding Hcl.
    rewrite Hrun in Hresolved. unfold and_then in Hresolved.
    destruct (run (for_each _ (initializePlugin this)) s)
      as [[s1 [[]|e]]|] eqn:Hloop; simplify_eq/=.
    destruct (for_each_initializePlugin_called _ _ _ _ Hloop) as (Hre1 & Hran).
    assert (Hrest : rebinding s1 s').
    { destruct (parent this) as [p|].
      - destruct (run (listActions p) s1) as [[s2 [inherited|e]]|] eqn:Hparent;
          simplify_eq/=. by eapply listActions_rebinding.
      - simplify_eq/=. apply rebinding_refl. }
    destruct (Hran name binding cl) as [?|[Hcalled|(b' & Hb' & Hnew)]];
      [|done|done|by left| |].
    + apply JsObject_keys_registered. by rewrite Hbinding.
    + right; left. destruct Hrest as (_ & Hcalls & _). by apply Hcalls.
    + right; right.
      destruct (rebinding_replaced _ _ _ _ _ _ Hre1 Hrest Hb' Hnew)
        as (b'' & Hb'' & Hnew'').
      rewrite Hb''. intros [= ->]. apply lookup_lt_Some in Hcl. lia.
Qed.

Lemma listActions_initialises_then_merges_witness :
  let gpt := mkAction "myplugin/gpt" 5 in
  let myplugin := mkPluginProvider "myplugin"
                    (AsyncInitializer (mkProvider [] [RegisterAction model gpt]
                                                  (Resolved 9))) in
  let s := registerPluginProvider root "myplugin" myplugin loaded in
  let s' := state_after (listActions root) s in
  run (listActions root) s = Some (s', Resolved {[ "/model/myplugin/gpt" := gpt ]})
  ∧ JsObject.own (pluginsByName (fields s root)) "myplugin"
    = Some (mkPluginBinding "myplugin" 0)
  ∧ closures s !! 0 = Some (mkClosure myplugin (plain PlainUndefined))
  ∧ JsObject.own (pluginsByName (fields s' root)) "myplugin"
    = Some (mkPluginBinding "myplugin" 0)
  ∧ CallInitializer 0 ∈ invocations s'.
Proof.
  intros gpt myplugin s s'.
  assert (Hrun : run (listActions root) s
                 = Some (s', Resolved {[ "/model/myplugin/gpt" := gpt ]}))
    by (vm_compute; reflexivity).
  assert (Hstays : JsObject.own (pluginsByName (fields s' root)) "myplugin"
                   = Some (mkPluginBinding "myplugin" 0))
    by (vm_compute; reflexivity).
  split; [exact Hrun|]. split; [reflexivity|]. split; [reflexivity|].
  split; [exact Hstays|].
  destruct (listActions_initialises_then_merges root s) as (_ & _ & _ & Hran).
  destruct (Hran s' _ Hrun "myplugin" (mkPluginBinding "myplugin" 0)
              (mkClosure myplugin (plain PlainUndefined)) ltac:(done) eq_refl eq_refl)
    as [Htruthy|[Hcalled|Hreplaced]];
    [discriminate Htruthy|exact Hcalled|destruct (Hreplaced Hstays)].
Defined.

(** C5, as stated, fails: the initialiser of the plugin [first] registers
    a plugin under the name [second] again.  [listActions] has read the
    names [first] and [second]; when it comes to [second] it initialises
    the plugin the name has then, and the plugin the node had under
    [second] at the call is never initialised. *)
Lemma listActions_as_specified_fails : ¬ listActions_as_specified.
Proof.
  intros Hspec.
  pose (second := mkPluginProvider "second" (AsyncInitializer (constant 2))).
  pose (again := mkPluginProvider "second" (AsyncInitializer (constant 3))).
  pose (first := mkPluginProvider "first"
                   (AsyncInitializer
                      (mkProvider [RegisterPluginProvider "second" again] []
                                  (Resolved 1)))).
  pose (s := registerPluginProvider root "second" second
               (registerPluginProvider root "first" first loaded)).
  destruct (Hspec root s (state_after (listActions root) s) ∅ "second"
              (mkPluginBinding "second" 1)
              (mkClosure second (plain PlainUndefined)))
    as [Htruthy|Hcalled]; [vm_compute; reflexivity|reflexivity|reflexivity| |].
  - discriminate Htruthy.
  - vm_compute in Hcalled.
    apply elem_of_cons in Hcalled as [Hcalled|Hcalled]; [discriminate Hcalled|].
    apply elem_of_cons in Hcalled as [Hcalled|Hcalled]; [discriminate Hcalled|].
    by apply elem_of_nil in Hcalled.
Qed.

(** *** Where no initialiser registers plugins *)

Lemma run_RegOps_quiet ops s :
  quiet_ops ops →
  closures (run_RegOps ops s) = closures s
  ∧ promises (run_RegOps ops s) = promises s
  ∧ invocations (run_RegOps ops s) = invocations s
  ∧ ∀ r, pluginsByName (fields (run_RegOps ops s) r) = pluginsByName (fields s r).
Proof.
  unfold run_RegOps. intros Hops. revert s.
  induction Hops as [|op ops Hop _ IH]; intros s; simpl; [done|].
  destruct (register_quiet (getRegistryInstance s) op s Hop) as (Hc & Hp & Hi & Ht).
  destruct (IH (register (getRegistryInstance s) op s)) as (Hc' & Hp' & Hi' & Ht').
  split; [congruence|]. split; [congruence|]. split; [congruence|].
  intros r. by rewrite Ht', Ht.
Qed.

Lemma quiet_ops_sync fn : quiet_ops (init_ops fn) → quiet_ops (init_sync_ops fn).
Proof.
  destruct fn as [[sync todo result|sync e]|sync v]; simpl; try done.
  unfold quiet_ops. rewrite Forall_app. tauto.
Qed.

Lemma quiet_ops_async sync todo result :
  quiet_ops (init_ops (AsyncInitializer (mkProvider sync todo result))) → quiet_ops todo.
Proof. simpl. unfold quiet_ops. rewrite Forall_app. tauto. Qed.

(** A closure called where no initialiser registers plugins. *)
Lemma call_initializer_quiet c s :
  quiet s →
  quiet (call_initializer c s).1
  ∧ ∀ r, pluginsByName (fields (call_initializer c s).1 r) = pluginsByName (fields s r).
Proof.
  intros Hquiet.
  destruct (call_initializer_cases c s) as [->|(cl & Hcl & Hcached & ->)]; [done|].
  destruct Hquiet as [Hclosures Hpromises].
  pose proof (Forall_lookup_1 _ _ _ _ Hclosures Hcl) as Hops. simpl in Hops.
  rewrite invoke_initializer_unfold. cbv zeta.
  destruct (run_RegOps_quiet (init_sync_ops (plugin_initializer (provider cl)))
              (set_invocations (λ l, l ++ [CallInitializer c]) s)
              (quiet_ops_sync _ Hops)) as (Hc & Hp & Hi & Ht).
  set (s1 := run_RegOps _ _) in *. simpl in Hc, Hp, Hi.
  destruct (plugin_initializer (provider cl)) as [[sync todo result|sync e]|sync v];
    cbn [fst].
  - split; [split|]; simpl.
    + rewrite Hc. apply Forall_alter; [done|]. by intros x _ Hx.
    + rewrite Hp. apply Forall_app. split; [done|].
      repeat constructor. by apply (quiet_ops_async sync todo result).
    + intros r. apply Ht.
  - split; [split|]; simpl.
    + by rewrite Hc.
    + by rewrite Hp.
    + intros r. apply Ht.
  - destruct (Returned_truthy (plain v)); (split; [split|]); simpl.
    + rewrite Hc. apply Forall_alter; [done|]. by intros x _ Hx.
    + by rewrite Hp.
    + intros r. apply Ht.
    + rewrite Hc. apply Forall_alter; [done|]. by intros x _ Hx.
    + by rewrite Hp.
    + intros r. apply Ht.
Qed.

Lemma settle_quiet_closures p s s' r :
  quiet s → settle p s = Some (s', r) →
  closures s' = closures s
  ∧ invocations s' = invocations s
  ∧ ∀ r0, pluginsByName (fields s' r0) = pluginsByName (fields s r0).
Proof.
  intros [_ Hpromises]. unfold settle. intros Hsettle.
  destruct (promises s !! p) as [[ctx todo result|result]|] eqn:Hp; simplify_eq;
    [|done].
  pose proof (Forall_lookup_1 _ _ _ _ Hpromises Hp) as Htodo. simpl in Htodo.
  destruct (run_RegOps_quiet todo (set_registryAls ctx s) Htodo) as (Hc & _ & Hi & Ht).
  split; [exact Hc|]. split; [exact Hi|exact Ht].
Qed.

(** ** Scopes *)

Lemma same_tables_refl t : same_tables t t.
Proof. by repeat split. Qed.

Lemma same_tables_trans t1 t2 t3 :
  same_tables t1 t2 → same_tables t2 t3 → same_tables t1 t3.
Proof.
  intros (? & ? & ? & ? & ?) (? & ? & ? & ? & ?).
  unfold same_tables. split_and!; congruence.
Qed.

Lemma elsewhere_untouched_refl c s : elsewhere_untouched c s s.
Proof. intros r _. apply same_tables_refl. Qed.

Lemma elsewhere_untouched_trans c s1 s2 s3 :
  elsewhere_untouched c s1 s2 → elsewhere_untouched c s2 s3 →
  elsewhere_untouched c s1 s3.
Proof.
  intros H12 H23 r Hr. eapply same_tables_trans; [by apply H23|by apply H12].
Qed.

Lemma same_tables_set_fields this f s r :
  (∀ t, same_tables (f t) t) →
  same_tables (fields (set_fields this f s) r) (fields s r).
Proof.
  intros Hf. rewrite fields_set_fields. case_decide as Heq; [|apply same_tables_refl].
  unfold fields. rewrite <- Heq.
  destruct (heap s !! addr this); [apply Hf|apply same_tables_refl].
Qed.

Lemma register_elsewhere c op s r :
  addr r ≠ addr c → fields (register c op s) r = fields s r.
Proof.
  intros Hr. destruct op as [type action|env p|env p|name p|name data]; simpl.
  - unfold registerAction. rewrite fields_set_fields_ne by done.
    by case_bool_decide.
  - unfold registerTraceStore, registerStore. by rewrite fields_set_fields_ne.
  - unfold registerFlowStateStore, registerStore. by rewrite fields_set_fields_ne.
  - unfold registerPluginProvider. by rewrite fields_set_fields_ne.
  - unfold registerSchema. by rewrite fields_set_fields_ne.
Qed.

Lemma register_scoped c op s :
  in_scope c (register c op s) = in_scope c s
  ∧ elsewhere_untouched c s (register c op s).
Proof.
  split.
  - unfold in_scope. by destruct (register_registration c op s) as (_ & _ & _ & -> & _).
  - intros r Hr. rewrite register_elsewhere by done. apply same_tables_refl.
Qed.

Lemma run_RegOps_scoped c ops s :
  in_scope c s →
  in_scope c (run_RegOps ops s) ∧ elsewhere_untouched c s (run_RegOps ops s).
Proof.
  unfold run_RegOps. revert s. induction ops as [|op ops IH]; intros s Hs; simpl.
  - split; [done|apply elsewhere_untouched_refl].
  - assert (Hcur : getRegistryInstance s = c)
      by (unfold getRegistryInstance; by rewrite Hs).
    rewrite Hcur. destruct (register_scoped c op s) as [Hin Hels].
    destruct (IH (register c op s)) as [Hin' Hels']; [by rewrite Hin|].
    split; [done|]. by eapply elsewhere_untouched_trans.
Qed.

Lemma invoke_scoped c who fn s :
  in_scope c s →
  in_scope c (invoke who fn s).1 ∧ elsewhere_untouched c s (invoke who fn s).1.
Proof.
  intros Hs. unfold invoke.
  destruct (run_RegOps_scoped c (prov_sync fn) (set_invocations (λ l, l ++ [who]) s))
    as [Hin Hels]; [done|].
  destruct fn as [sync todo result|sync e]; cbn [fst];
    (split; [done|]); intros r Hr; apply (Hels r Hr).
Qed.

Lemma invoke_initializer_scoped c who fn s :
  in_scope c s →
  in_scope c (invoke_initializer who fn s).1
  ∧ elsewhere_untouched c s (invoke_initializer who fn s).1.
Proof.
  intros Hs. rewrite invoke_initializer_unfold. cbv zeta.
  destruct (run_RegOps_scoped c (init_sync_ops fn)
              (set_invocations (λ l, l ++ [who]) s)) as [Hin Hels]; [done|].
  destruct fn as [[sync todo result|sync e]|sync v]; cbn [fst];
    try (split; [done|]; intros r Hr; apply (Hels r Hr)).
  destruct (Returned_truthy (plain v));
    (split; [done|]); intros r Hr; apply (Hels r Hr).
Qed.

Lemma lookupOverlaidStore_body_scoped c k this env s :
  in_scope c s →
  in_scope c (lookupOverlaidStore_body k this env s).1
  ∧ elsewhere_untouched c s (lookupOverlaidStore_body k this env s).1.
Proof.
  intros Hs.
  destruct (lookupOverlaidStore_body_cases k this env s)
    as [->|(prov & _ & _ & _ & ->)]; [split; [done|apply elsewhere_untouched_refl]|].
  destruct (invoke_scoped c (CallProvider k (addr this) env) prov s Hs) as [Hin Hels].
  destruct (invoke (CallProvider k (addr this) env) prov s) as [s1 [e|p]];
    simpl in *; [done|].
  split; [done|]. intros r Hr.
  eapply same_tables_trans; [|by apply Hels].
  apply same_tables_set_fields. intros t. by destruct k.
Qed.

Lemma call_initializer_scoped c closure s :
  in_scope c s →
  in_scope c (call_initializer closure s).1
  ∧ elsewhere_untouched c s (call_initializer closure s).1.
Proof.
  intros Hs.
  destruct (call_initializer_cases closure s) as [->|(cl & _ & _ & ->)];
    [split; [done|apply elsewhere_untouched_refl]|].
  destruct (invoke_initializer_scoped c (CallInitializer closure)
              (plugin_initializer (provider cl)) s Hs) as [Hin Hels].
  destruct (invoke_initializer (CallInitializer closure) _ s) as [s1 [e|x]];
    simpl in *; [done|].
  split; [done|]. intros r Hr. by apply Hels.
Qed.

Lemma perform_scoped c this call :
  keeps (in_scope c) (elsewhere_untouched c) (perform this call).
Proof.
  apply perform_keeps.
  - apply elsewhere_untouched_refl.
  - intros. by apply lookupOverlaidStore_body_scoped.
  - intros. by apply call_initializer_scoped.
Qed.

(** Client code run in the scope of [c] registers on [c] only. *)
Lemma interp_scoped c fn :
  keeps (in_scope c) (elsewhere_untouched c) (interp fn c).
Proof.
  pose proof (elsewhere_untouched_refl c) as Hrefl.
  pose proof (elsewhere_untouched_trans c) as Htrans.
  induction fn as [o|op rest IH|op rest IH|ac rest IH|ac rest IH
                   |name rest IH|name rest IH]; simpl.
  - constructor.
  - change (keeps (in_scope c) (elsewhere_untouched c)
              (call (λ s, (register c op s, ())) ≫= λ _, interp rest c)).
    apply keeps_bind; [|done]. apply keeps_call. intros s Hs. simpl.
    destruct (register_scoped c op s) as [Hin Hels]. split; [by rewrite Hin|done].
  - change (keeps (in_scope c) (elsewhere_untouched c)
              (call (λ s, (register (getRegistryInstance s) op s, ()))
               ≫= λ _, interp rest c)).
    apply keeps_bind; [|done]. apply keeps_call. intros s Hs. simpl.
    assert (Hcur : getRegistryInstance s = c)
      by (unfold getRegistryInstance; by rewrite Hs).
    rewrite Hcur.
    destruct (register_scoped c op s) as [Hin Hels]. split; [by rewrite Hin|done].
  - change (keeps (in_scope c) (elsewhere_untouched c)
              (await (Exported.on_current (λ current, perform current ac))
               ≫= λ reply, interp (rest reply) c)).
    apply keeps_bind; [|done]. apply keeps_await. unfold Exported.on_current.
    apply keeps_bind; [by apply keeps_read|]. intros current. apply perform_scoped.
  - change (keeps (in_scope c) (elsewhere_untouched c)
              (call (λ s, ((run_atomic (perform (getRegistryInstance s) ac) s).1, ()))
               ≫= λ _, interp rest c)).
    apply keeps_bind; [|done]. apply keeps_call. intros s Hs. simpl.
    destruct (run_atomic_keeps (in_scope c) (elsewhere_untouched c) Hrefl Htrans
                (perform (getRegistryInstance s) ac) s) as (? & ? & _);
      [apply perform_scoped|done|done].
  - change (keeps (in_scope c) (elsewhere_untouched c)
              (read_client (Exported.lookupSchema name)
               ≫= λ data, interp (rest data) c)).
    apply keeps_bind; [by apply keeps_read_client|done].
  - change (keeps (in_scope c) (elsewhere_untouched c)
              (read_client (lookupPlugin c name)
               ≫= λ binding, interp (rest binding) c)).
    apply keeps_bind; [by apply keeps_read_client|done].
Qed.

(** C7. [runInTempRegistry(fn)] makes a new node whose tables are empty
    and whose parent is the registry current at the call, and runs [fn]
    with it as argument and as current registry.  When the call returns,
    the caller's scope is back and the five tables of every node there was
    before the call, the original node among them, are as they were; and
    what is left of [fn] to run later still runs in the scope of the new
    node and touches the tables of no other. *)
Theorem runInTempRegistry_leaves_original_unchanged (fn : Script) s :
  let temp := mkRegistry (length (heap s)) (Some (getRegistryInstance s)) in
  let s' := (runInTempRegistry (interp fn) s).1 in
  let rest := (runInTempRegistry (interp fn) s).2 in
  withCurrent s = (set_heap (λ h, h ++ [new_Tables]) s, temp)
  ∧ fields (withCurrent s).1 temp = new_Tables
  ∧ runInTempRegistry (interp fn) s = runInRegistry temp (interp fn) (withCurrent s).1
  ∧ registryAls s' = registryAls s
  ∧ (∀ r, addr r < length (heap s) → same_tables (fields s' r) (fields s r))
  ∧ keeps (in_scope temp) (elsewhere_untouched temp) rest.
Proof.
  intros temp s' rest.
  assert (Hfresh : fields (withCurrent s).1 temp = new_Tables).
  { unfold fields; simpl. rewrite lookup_app_r by lia. by rewrite Nat.sub_diag. }
  split; [done|]. split; [done|]. split; [done|].
  unfold s', rest, runInTempRegistry, runInRegistry.
  change (withCurrent s) with (set_heap (λ h, h ++ [new_Tables]) s, temp).
  cbv beta iota.
  set (s0 := set_registryAls (Some temp) (set_heap (λ h, h ++ [new_Tables]) s)).
  destruct (run_atomic_keeps (in_scope temp) (elsewhere_untouched temp)
              (elsewhere_untouched_refl temp) (elsewhere_untouched_trans temp)
              (interp fn temp) s0) as (Hin & Hels & Hrest);
    [apply interp_scoped|done|].
  destruct (run_atomic (interp fn temp) s0) as [s1 rest1]. simpl in *.
  split; [done|]. split; [|done].
  intros r Hr. eapply same_tables_trans; [apply (Hels r); simpl; lia|].
  unfold fields; simpl. rewrite lookup_app_l by done. apply same_tables_refl.
Qed.

Lemma runInTempRegistry_leaves_original_unchanged_witness :
  let s := registerAction root tool (mkAction "search" 1) loaded in
  let fn := OnCurrent (RegisterAction tool (mkAction "search" 2))
              (OnArgument (RegisterSchema "Query" (mkSchemaData (Some 1) None))
                 (Returns 0)) in
  let s' := (runInTempRegistry (interp fn) s).1 in
  addr root < length (heap s)
  ∧ actionsById (fields s' (mkRegistry 1 (Some root))) !! "/tool/search"
    = Some (mkAction "search" 2)
  ∧ same_tables (fields s' root) (fields s root).
Proof.
  intros s fn s'.
  assert (Hroot : addr root < length (heap s)) by (vm_compute; lia).
  split; [exact Hroot|]. split; [vm_compute; reflexivity|].
  destruct (runInTempRegistry_leaves_original_unchanged fn s)
    as (_ & _ & _ & _ & Hsame & _).
  exact (Hsame root Hroot).
Defined.

(** ** The specification's scenarios, run *)

(** A plugin registers the action [/model/myplugin/gpt] in its
    initialiser: looking the key up finds the action after one call of the
    initialiser, and a second lookup calls nothing. *)
Example plugin_triggered_resolution :
  let gpt := mkAction "myplugin/gpt" 5 in
  let myplugin := mkPluginProvider "myplugin"
                    (AsyncInitializer (mkProvider [] [RegisterAction model gpt]
                                                  (Resolved 9))) in
  let s := registerPluginProvider root "myplugin" myplugin loaded in
  let s' := state_after (lookupAction root "/model/myplugin/gpt") s in
  snd <$> run (lookupAction root "/model/myplugin/gpt") s = Some (Resolved (Own gpt))
  ∧ invocations s' = [CallInitializer 0]
  ∧ run (lookupAction root "/model/myplugin/gpt") s' = Some (s', Resolved (Own gpt)).
Proof. vm_compute. done. Qed.

(** [listActions] shows what the plugins register, before any lookup, and
    the local entry where the parent has one under the same key. *)
Example listActions_reflects_plugins :
  let gpt := mkAction "myplugin/gpt" 5 in
  let myplugin := mkPluginProvider "myplugin"
                    (AsyncInitializer (mkProvider [RegisterAction model gpt] []
                                                  (Resolved 9))) in
  let s := registerAction child tool (mkAction "search" 2)
             (withParent root
                (registerAction root tool (mkAction "search" 1)
                   (registerPluginProvider root "myplugin" myplugin loaded))).1 in
  snd <$> run (listActions child) s
  = Some (Resolved {[ "/tool/search" := mkAction "search" 2;
                      "/model/myplugin/gpt" := gpt ]}).
Proof. vm_compute. done. Qed.

(** In an isolated registry nothing of the default registry is seen. *)
Example isolation :
  let s := registerAction root tool (mkAction "search" 1) loaded in
  let fn := Awaits (LookupAction "/tool/search")
              (λ reply, Returns (match reply with
                                 | ReplyAction (Own _) => 1
                                 | _ => 0
                                 end)) in
  let '(s1, rest) := runInIsolatedRegistry (interp fn) s in
  (r ← resume (Some (mkRegistry 1 None)) rest s1; Some r.2) = Some (Ret 0).
Proof. vm_compute. done. Qed.

(** * Further properties *)

(** ** What is kept of a construction *)

Lemma settle_settled p s s' r :
  settle p s = Some (s', r) → settle p s' = Some (s', r).
Proof.
  unfold settle at 1. intros Hsettle.
  destruct (promises s !! p) as [[ctx todo result|result]|] eqn:Hp; simplify_eq.
  - unfold settle. simpl.
    destruct (run_RegOps_registration todo (set_registryAls ctx s))
      as (_ & _ & -> & _).
    simpl. rewrite list_lookup_insert_eq by (by eapply lookup_lt_Some). done.
  - unfold settle. by rewrite Hp.
Qed.

Lemma count_called i s s' :
  invocations s' = invocations s ++ [i] → count i s' = S (count i s).
Proof.
  intros Hi. unfold count. rewrite Hi, filter_app, length_app, filter_cons.
  rewrite decide_True by done. simpl. lia.
Qed.

(** The first lookup with a provider that returns a promise: the lookup
    completes as the promise, which is in the slot and settled. *)
Lemma run_lookupStore_construct_settled k this env s sync todo result :
  storesByEnv k (fields s this) !! env = Some (mkProvider sync todo result) →
  storesByEnvCache k (fields s this) !! env = None →
  JsObject.inherited env = false →
  ∃ s' p, run (lookupStore k this env) s = Some (s', Result_map Own result)
          ∧ storesByEnvCache k (fields s' this) !! env = Some p
          ∧ is_Some (storesByEnv k (fields s' this) !! env)
          ∧ settle p s' = Some (s', result).
Proof.
  intros Hprov Hcache Henv.
  rewrite run_lookupStore, (lookupOverlaidStore_body_call _ _ _ _ _ Hprov) by done.
  destruct (invoke_eq (CallProvider k (addr this) env) (mkProvider sync todo result) s)
    as (s1 & Hreg & ->).
  cbv beta iota. cbn [fst snd].
  pose proof Hreg as (_ & _ & Hp & _ & _ & _ & Hc & Hb & _).
  pose proof (storesByEnv_allocated _ _ _ _ _ Hprov) as Halloc.
  destruct (registration_allocated _ _ (addr this) Hreg Halloc) as [t Ht].
  set (s2 := set_fields this _ _).
  assert (Hpending : promises s2 !! length (promises s1)
          = Some (Pending (registryAls s1) todo result)).
  { simpl. rewrite lookup_app_r by lia. by rewrite Nat.sub_diag. }
  destruct (settle (length (promises s1)) s2) as [[s3 r]|] eqn:Hsettle.
  2: { unfold settle in Hsettle. by rewrite Hpending in Hsettle. }
  assert (Hr : r = result).
  { pose proof (settle_result (length (promises s1)) s2) as Hres.
    rewrite Hsettle, Hpending in Hres. by simplify_eq/=. }
  subst r. exists s3, (length (promises s1)). split; [done|].
  assert (Hbound : is_Some (storesByEnv k (fields s2 this) !! env)).
  { unfold s2. rewrite fields_set_fields. simpl. rewrite Ht, decide_True by done.
    specialize (Hb this k env). unfold fields at 2 in Hb. simpl in Hb.
    rewrite Ht in Hb. simpl in Hb.
    assert (is_Some (storesByEnv k t !! env)) as Hbt
      by (apply Hb; change (is_Some (storesByEnv k (fields s this) !! env));
          by rewrite Hprov).
    by destruct k. }
  split; [|split].
  - rewrite (settle_caches _ _ _ _ k this Hsettle). unfold s2.
    rewrite fields_set_fields. simpl. rewrite Ht, decide_True by done.
    rewrite storesByEnvCache_set, decide_True by done.
    by rewrite lookup_insert_eq.
  - by eapply settle_bound.
  - by eapply settle_settled.
Qed.

(** X1. A lookup of a store on a node that binds a provider, once the
    slot is filled, has fixed its outcome: run again in the state it left,
    the lookup completes the same way, resolved or rejected, and changes
    nothing, so no provider is called again, not even after a promise
    that was rejected.  (The slot is not filled when the provider threw
    before it returned a promise, or when the environment is the name of
    a property that objects inherit.) *)
Theorem lookupStore_outcome_is_kept k this env s s' r storeProvider :
  storesByEnv k (fields s this) !! env = Some storeProvider →
  run (lookupStore k this env) s = Some (s', r) →
  is_Some (storesByEnvCache k (fields s' this) !! env) →
  run (lookupStore k this env) s' = Some (s', r).
Proof.
  intros Hprov Hrun Hfilled.
  destruct (storesByEnvCache k (fields s this) !! env) as [p|] eqn:Hcache.
  { rewrite (run_lookupStore_cached _ _ _ _ _ _ Hprov Hcache) in Hrun.
    unfold then_ in Hrun.
    destruct (settle p s) as [[s2 r2]|] eqn:Hsettle; simplify_eq/=.
    destruct (settle_bound _ _ _ _ k this env Hsettle) as [prov' Hprov'];
      [by rewrite Hprov|].
    rewrite (run_lookupStore_cached k this env s' prov' p); [|done|].
    - by rewrite (settle_settled _ _ _ _ Hsettle).
    - by rewrite (settle_caches _ _ _ _ k this Hsettle). }
  destruct (JsObject.inherited env) eqn:Henv.
  { rewrite run_lookupStore in Hrun. unfold lookupOverlaidStore_body in Hrun.
    rewrite (JsObject_get_client_own _ _ _ Hprov) in Hrun.
    rewrite (JsObject_get_inherited _ _ Hcache Henv) in Hrun.
    simpl in Hrun. simplify_eq. rewrite Hcache in Hfilled. by destruct Hfilled. }
  destruct storeProvider as [sync todo result|sync e].
  - destruct (run_lookupStore_construct_settled _ _ _ _ _ _ _ Hprov Hcache Henv)
      as (s2 & p & Hrun2 & Hslot & [prov' Hprov'] & Hsettled).
    rewrite Hrun2 in Hrun. simplify_eq.
    rewrite (run_lookupStore_cached k this env s' prov' p) by done.
    by rewrite Hsettled.
  - destruct (run_lookupStore_throws _ _ _ _ _ _ Hprov Hcache Henv)
      as (s2 & Hrun2 & _ & _ & Hempty & _).
    rewrite Hrun2 in Hrun. simplify_eq. rewrite Hempty in Hfilled.
    by destruct Hfilled.
Qed.

Lemma lookupStore_outcome_is_kept_witness :
  let failing := mkProvider [] [] (Rejected (Raised 3)) in
  let s := registerFlowStateStore root "prod" failing loaded in
  let s' := state_after (lookupFlowStateStore root "prod") s in
  storesByEnv FlowStateStore (fields s root) !! "prod" = Some failing
  ∧ run (lookupFlowStateStore root "prod") s = Some (s', Rejected (Raised 3))
  ∧ storesByEnvCache FlowStateStore (fields s' root) !! "prod" = Some 0
  ∧ invocations s' = [CallProvider FlowStateStore 0 "prod"]
  ∧ run (lookupFlowStateStore root "prod") s' = Some (s', Rejected (Raised 3)).
Proof.
  intros failing s s'.
  assert (Hbound : storesByEnv FlowStateStore (fields s root) !! "prod" = Some failing)
    by (vm_compute; reflexivity).
  assert (Hrun : run (lookupFlowStateStore root "prod") s
                 = Some (s', Rejected (Raised 3)))
    by (vm_compute; reflexivity).
  assert (Hslot : storesByEnvCache FlowStateStore (fields s' root) !! "prod" = Some 0)
    by (vm_compute; reflexivity).
  split; [exact Hbound|]. split; [exact Hrun|]. split; [exact Hslot|].
  split; [vm_compute; reflexivity|].
  apply (lookupStore_outcome_is_kept FlowStateStore root "prod" s s' _ failing
           Hbound Hrun).
  rewrite Hslot. eexists. reflexivity.
Defined.

(** A closure that is called, where there is one: what it returns is in
    [cached] afterwards; if the initialiser threw, [cached] is as it
    was, falsy. *)
Lemma call_initializer_kept c s cl :
  closures s !! c = Some cl →
  match (call_initializer c s).2 with
  | Some (inr x) =>
      ∃ cl1, closures (call_initializer c s).1 !! c = Some cl1 ∧ cached cl1 = x
  | Some (inl e) =>
      closures (call_initializer c s).1 !! c = Some cl
      ∧ Returned_truthy (cached cl) = false
  | None => False
  end.
Proof.
  intros Hcl. unfold call_initializer. rewrite Hcl.
  destruct (Returned_truthy (cached cl)) eqn:Hcached; [simpl; eauto|].
  rewrite invoke_initializer_unfold. cbv zeta.
  pose proof (run_RegOps_registration
                (init_sync_ops (plugin_initializer (provider cl)))
                (set_invocations (λ l, l ++ [CallInitializer c]) s)) as Hreg.
  pose proof (registration_closures_old _ _ c cl Hreg Hcl) as Hcl1.
  set (s1 := run_RegOps _ _) in *.
  destruct (plugin_initializer (provider cl)) as [[sync todo result|sync e]|sync v];
    cbn [fst snd].
  - simpl. rewrite list_lookup_alter_eq, Hcl1. simpl. eauto.
  - done.
  - destruct (Returned_truthy (plain v)); simpl;
      rewrite list_lookup_alter_eq, Hcl1; simpl; eauto.
Qed.

(** X2. Where no plugin initialiser registers plugins, [initializePlugin]
    has fixed its outcome once the closure of the plugin holds something
    truthy: run again in the state it left, it completes the same way,
    resolved or rejected, and changes nothing, so the initialiser is not
    called again, not even after a promise that was rejected.  (The
    closure holds nothing truthy when the initialiser threw or returned a
    falsy value.) *)
Theorem initializePlugin_outcome_is_kept this name s s' r :
  quiet s →
  run (initializePlugin this name) s = Some (s', r) →
  (∀ binding cl',
     JsObject.own (pluginsByName (fields s this)) name = Some binding →
     closures s' !! initializer binding = Some cl' →
     Returned_truthy (cached cl') = true) →
  run (initializePlugin this name) s' = Some (s', r).
Proof.
  intros Hquiet Hrun Hkept.
  destruct (JsObject.get_ordered (pluginsByName (fields s this)) name)
    as [[|binding|member]|] eqn:Hget.
  - rewrite run_initializePlugin in Hrun. unfold initializePlugin_body in Hrun.
    rewrite Hget in Hrun. simpl in Hrun. simplify_eq.
    rewrite run_initializePlugin. unfold initializePlugin_body. by rewrite Hget.
  - pose proof (JsObject_get_ordered_Own _ _ _ Hget) as Hown.
    rewrite run_initializePlugin, (initializePlugin_body_own _ _ _ _ Hown) in Hrun.
    cbn [fst snd] in Hrun.
    destruct (closures s !! initializer binding) as [cl|] eqn:Hcl.
    2: { unfold call_initializer in Hrun. by rewrite Hcl in Hrun. }
    pose proof (call_initializer_kept _ _ _ Hcl) as Hres.
    destruct (call_initializer_quiet (initializer binding) s Hquiet)
      as [Hquiet1 Htables1].
    destruct (call_initializer (initializer binding) s) as [s1 [[e|x]|]];
      simpl in Hrun, Hres, Hquiet1, Htables1; [| |done].
    + simplify_eq. destruct Hres as [Hcl1 Hfalsy].
      by rewrite (Hkept _ _ Hown Hcl1) in Hfalsy.
    + destruct Hres as (cl1 & Hcl1 & Hx). destruct x as [p|v].
      * unfold then_ in Hrun.
        destruct (settle p s1) as [[s2 r2]|] eqn:Hsettle; simpl in Hrun;
          simplify_eq.
        destruct (settle_quiet_closures _ _ _ _ Hquiet1 Hsettle) as (Hc2 & _ & Ht2).
        assert (Hown' : JsObject.own (pluginsByName (fields s' this)) name
                        = Some binding) by (by rewrite Ht2, Htables1).
        rewrite run_initializePlugin, (initializePlugin_body_own _ _ _ _ Hown').
        unfold call_initializer. rewrite Hc2, Hcl1, Hx. simpl.
        by rewrite (settle_settled _ _ _ _ Hsettle).
      * simplify_eq.
        assert (Hown' : JsObject.own (pluginsByName (fields s' this)) name
                        = Some binding) by (by rewrite Htables1).
        rewrite run_initializePlugin, (initializePlugin_body_own _ _ _ _ Hown').
        unfold call_initializer. rewrite Hcl1, (Hkept _ _ Hown Hcl1), Hx. done.
  - rewrite run_initializePlugin in Hrun. unfold initializePlugin_body in Hrun.
    rewrite Hget in Hrun. simpl in Hrun. simplify_eq.
    rewrite run_initializePlugin. unfold initializePlugin_body. by rewrite Hget.
  - rewrite run_initializePlugin in Hrun. unfold initializePlugin_body in Hrun.
    by rewrite Hget in Hrun.
Qed.

Lemma initializePlugin_outcome_is_kept_witness :
  let failing := mkPluginProvider "broken"
                   (AsyncInitializer (mkProvider [] [] (Rejected (Raised 4)))) in
  let s := registerPluginProvider root "broken" failing loaded in
  let s' := state_after (initializePlugin root "broken") s in
  quiet s
  ∧ run (initializePlugin root "broken") s = Some (s', Rejected (Raised 4))
  ∧ closures s' !! 0 = Some (mkClosure failing (promise 0))
  ∧ invocations s' = [CallInitializer 0]
  ∧ run (initializePlugin root "broken") s' = Some (s', Rejected (Raised 4)).
Proof.
  intros failing s s'.
  assert (Hquiet : quiet s) by (split; repeat constructor).
  assert (Hrun : run (initializePlugin root "broken") s
                 = Some (s', Rejected (Raised 4)))
    by (vm_compute; reflexivity).
  split; [exact Hquiet|]. split; [exact Hrun|]. split; [reflexivity|].
  split; [vm_compute; reflexivity|].
  apply (initializePlugin_outcome_is_kept root "broken" s s' _ Hquiet Hrun).
  intros binding cl' Hbinding Hcl'. vm_compute in Hbinding. simplify_eq.
  vm_compute in Hcl'. by simplify_eq.
Defined.

(** X18. A provider that throws before it returns a promise is called at
    every lookup: the lookup is rejected with what the provider threw,
    the call is counted, and the slot stays empty with a provider still
    bound, so the next lookup calls a provider again. *)
Theorem throwing_provider_is_called_again k this env s sync e :
  storesByEnv k (fields s this) !! env = Some (mkThrowingProvider sync e) →
  storesByEnvCache k (fields s this) !! env = None →
  JsObject.inherited env = false →
  ∃ s', run (lookupStore k this env) s = Some (s', Rejected e)
        ∧ count (CallProvider k (addr this) env) s'
          = S (count (CallProvider k (addr this) env) s)
        ∧ storesByEnvCache k (fields s' this) !! env = None
        ∧ is_Some (storesByEnv k (fields s' this) !! env).
Proof.
  intros Hprov Hcache Henv.
  destruct (run_lookupStore_throws _ _ _ _ _ _ Hprov Hcache Henv)
    as (s' & Hrun & Hi & _ & Hempty & Hbound).
  exists s'. split; [done|]. split; [by apply count_called|done].
Qed.

Lemma throwing_provider_is_called_again_witness :
  let throwing := mkThrowingProvider [] (Raised 5) in
  let s := registerTraceStore root "dev" throwing loaded in
  let s1 := state_after (lookupTraceStore root "dev") s in
  let s2 := state_after (lookupTraceStore root "dev") s1 in
  storesByEnv TraceStore (fields s1 root) !! "dev" = Some throwing
  ∧ storesByEnvCache TraceStore (fields s1 root) !! "dev" = None
  ∧ JsObject.inherited "dev" = false
  ∧ run (lookupTraceStore root "dev") s1 = Some (s2, Rejected (Raised 5))
  ∧ count (CallProvider TraceStore 0 "dev") s2 = 2.
Proof.
  intros throwing s s1 s2.
  assert (Hbound : storesByEnv TraceStore (fields s1 root) !! "dev" = Some throwing)
    by (vm_compute; reflexivity).
  assert (Hempty : storesByEnvCache TraceStore (fields s1 root) !! "dev" = None)
    by (vm_compute; reflexivity).
  assert (Henv : JsObject.inherited "dev" = false) by (vm_compute; reflexivity).
  split; [exact Hbound|]. split; [exact Hempty|]. split; [exact Henv|].
  destruct (throwing_provider_is_called_again TraceStore root "dev" s1 [] (Raised 5)
              Hbound Hempty Henv) as (s' & Hrun & Hcount & _).
  assert (Hs' : s' = s2).
  { unfold s2, state_after.
    change (lookupTraceStore root "dev") with (lookupStore TraceStore root "dev").
    by rewrite Hrun. }
  subst s'. split; [exact Hrun|].
  etrans; [exact Hcount|vm_compute; reflexivity].
Defined.

(** X19. A plugin initialiser that returns a falsy value without
    suspending is called at every [initializePlugin]: the closure tests
    [cached], which holds that value, so it calls the initialiser again;
    the call resolves to the value, the call of the initialiser is
    counted, and the closure holds the falsy value again afterwards. *)
Theorem falsy_initializer_runs_again this name s binding cl sync v :
  JsObject.own (pluginsByName (fields s this)) name = Some binding →
  closures s !! initializer binding = Some cl →
  Returned_truthy (cached cl) = false →
  plugin_initializer (provider cl) = SyncInitializer sync v →
  Returned_truthy (plain v) = false →
  ∃ s', run (initializePlugin this name) s = Some (s', Resolved (Plain_value v))
        ∧ count (CallInitializer (initializer binding)) s'
          = S (count (CallInitializer (initializer binding)) s)
        ∧ closures s' !! initializer binding = Some (mkClosure (provider cl) (plain v)).
Proof.
  intros Hown Hcl Hcached Hinit Hfalsy.
  rewrite run_initializePlugin, (initializePlugin_body_own _ _ _ _ Hown).
  unfold call_initializer. rewrite Hcl, Hcached, invoke_initializer_unfold, Hinit.
  cbv zeta. rewrite Hfalsy.
  pose proof (run_RegOps_registration sync
                (set_invocations (λ l, l ++ [CallInitializer (initializer binding)]) s))
    as Hreg.
  pose proof (registration_closures_old _ _ _ cl Hreg Hcl) as Hcl1.
  destruct Hreg as (Hi & _).
  set (s1 := run_RegOps _ _) in *. cbn [fst snd].
  eexists. split; [done|]. split.
  - apply count_called. simpl. by rewrite Hi.
  - simpl. by rewrite list_lookup_alter_eq, Hcl1.
Qed.

Lemma falsy_initializer_runs_again_witness :
  let plugin := mkPluginProvider "sync" (SyncInitializer [] PlainUndefined) in
  let s := registerPluginProvider root "sync" plugin loaded in
  let s1 := state_after (initializePlugin root "sync") s in
  let s2 := state_after (initializePlugin root "sync") s1 in
  JsObject.own (pluginsByName (fields s1 root)) "sync" = Some (mkPluginBinding "sync" 0)
  ∧ closures s1 !! 0 = Some (mkClosure plugin (plain PlainUndefined))
  ∧ run (initializePlugin root "sync") s1 = Some (s2, Resolved None)
  ∧ count (CallInitializer 0) s2 = 2.
Proof.
  intros plugin s s1 s2.
  assert (Hown : JsObject.own (pluginsByName (fields s1 root)) "sync"
                 = Some (mkPluginBinding "sync" 0)) by (vm_compute; reflexivity).
  assert (Hcl : closures s1 !! initializer (mkPluginBinding "sync" 0)
                = Some (mkClosure plugin (plain PlainUndefined)))
    by (vm_compute; reflexivity).
  split; [exact Hown|]. split; [exact Hcl|].
  destruct (falsy_initializer_runs_again root "sync" s1 (mkPluginBinding "sync" 0)
              (mkClosure plugin (plain PlainUndefined)) [] PlainUndefined
              Hown Hcl eq_refl eq_refl eq_refl) as (s' & Hrun & Hcount & _).
  assert (Hs' : s' = s2) by (unfold s2, state_after; by rewrite Hrun).
  subst s'. split; [exact Hrun|].
  etrans; [exact Hcount|vm_compute; reflexivity].
Defined.

(** ** Stores along the chain *)

Lemma unbound_true k env s r :
  unbound k env s r = true
  ↔ JsObject.get_client (storesByEnv k (fields s r)) env = Some Undefined.
Proof.
  unfold unbound.
  destruct (JsObject.get_client (storesByEnv k (fields s r)) env) as [[| |]|];
    split; done.
Qed.

Lemma nearest_binding_eq k env s this :
  nearest_binding k env s this
  = if unbound k env s this then
      match parent this with
      | Some parent => nearest_binding k env s parent
      | None => None
      end
    else Some this.
Proof.
  unfold nearest_binding. destruct this as [a [p|]]; simpl; rewrite filter_cons;
    case_decide as Hu; rewrite Hu || (apply not_false_is_true in Hu; rewrite Hu);
    done.
Qed.

Lemma nearest_binding_Some k env s this node :
  nearest_binding k env s this = Some node →
  node ∈ chain this ∧ unbound k env s node = false.
Proof.
  unfold nearest_binding. intros Hhead.
  assert (Hin : node ∈ filter (λ r, unbound k env s r = false) (chain this)).
  { destruct (filter _ (chain this)) as [|x l]; simplify_eq/=. apply list_elem_of_here. }
  apply list_elem_of_filter in Hin as [? ?]. done.
Qed.


Lemma run_lookupStore_nearest k this env s :
  run (lookupStore k this env) s
  = match nearest_binding k env s this with
    | Some node => run (lookupStore k node env) s
    | None => Some (s, Resolved Undefined)
    end.
Proof.
  induction this as [a|a p IH] using Registry_induction;
    rewrite nearest_binding_eq; destruct (unbound k env s _) eqn:Hu; try done.
  - by rewrite run_lookupStore_unbound by by apply unbound_true.
  - rewrite run_lookupStore_unbound by by apply unbound_true. apply IH.
Qed.


(** What the body of [lookupOverlaid...Store] calls and writes, on a
    node whose table entry for [env] is not undefined. *)
Lemma lookupOverlaidStore_body_footprint k this env s :
  (lookupOverlaidStore_body k this env s).2 ≠ None →
  unbound k env s this = false →
  (lookupOverlaidStore_body k this env s).2 ≠ Some (inr Undefined)
  ∧ invocations (lookupOverlaidStore_body k this env s).1
    = invocations s
        ++ (if JsObject.truthy (JsObject.get (storesByEnvCache k (fields s this)) env)
            then [] else [CallProvider k (addr this) env])
  ∧ ∀ k' r0 env',
      k' ≠ k ∨ addr r0 ≠ addr this ∨ env' ≠ env →
      storesByEnvCache k' (fields (lookupOverlaidStore_body k this env s).1 r0) !! env'
      = storesByEnvCache k' (fields s r0) !! env'.
Proof.
  unfold lookupOverlaidStore_body, unbound.
  destruct (JsObject.get_client (storesByEnv k (fields s this)) env)
    as [[|prov|member]|] eqn:Hbound; try done;
    destruct (JsObject.get (storesByEnvCache k (fields s this)) env)
      as [|p|member'] eqn:Hcache; simpl; intros Hmodelled _; try done;
    try (split; [done|]; split; [by rewrite app_nil_r|done]).
  destruct (invoke_eq (CallProvider k (addr this) env) prov s) as (s1 & Hreg & ->).
  pose proof Hreg as (Hi & _ & _ & _ & _ & _ & Hc0 & _).
  assert (Hc : ∀ r k0, storesByEnvCache k0 (fields s1 r)
                       = storesByEnvCache k0 (fields s r)) by exact Hc0.
  clear Hc0. destruct prov as [sync todo result|sync e]; cbn [fst snd].
  - split; [done|]. split; [exact Hi|]. intros k' r0 env' Hother.
    rewrite fields_set_fields. case_decide as Haddr.
    + simpl. destruct (heap s1 !! addr this) as [t|] eqn:Ht.
      * assert (Ht' : fields s1 r0 = t) by (unfold fields; by rewrite <- Haddr, Ht).
        rewrite storesByEnvCache_set, <- Ht'.
        destruct (decide (k = k')) as [<-|Hk]; [|by rewrite (Hc r0 k')].
        rewrite lookup_insert_ne by (intros ->; by destruct Hother as [?|[?|?]]).
        by rewrite (Hc r0 k).
      * rewrite <- (Hc r0 k'). unfold fields. by rewrite <- Haddr, Ht.
    + apply (f_equal (λ m, m !! env')), (Hc r0 k').
  - split; [done|]. split; [exact Hi|]. intros k' r0 env' _.
    apply (f_equal (λ m, m !! env')), (Hc r0 k').
Qed.

(** X4. A store lookup that completes calls at most one provider, the
    one of the nearest node on which the table entry for the environment
    is not undefined, and only when that node's cache slot is undefined
    ([cache[env]] is falsy: the slot is empty and [env] names no
    inherited property); it writes that slot and no other cache slot of
    any node.  When the entry is undefined on every node of the chain it
    changes nothing. *)
Theorem lookupStore_footprint k this env s s' r :
  run (lookupStore k this env) s = Some (s', r) →
  match nearest_binding k env s this with
  | Some node =>
      invocations s'
      = invocations s
          ++ (if JsObject.truthy (JsObject.get (storesByEnvCache k (fields s node)) env)
              then [] else [CallProvider k (addr node) env])
      ∧ ∀ k' r0 env',
          k' ≠ k ∨ addr r0 ≠ addr node ∨ env' ≠ env →
          storesByEnvCache k' (fields s' r0) !! env'
          = storesByEnvCache k' (fields s r0) !! env'
  | None => s' = s
  end.
Proof.
  rewrite run_lookupStore_nearest. intros Hrun.
  destruct (nearest_binding k env s this) as [node|] eqn:Hnearest; [|by simplify_eq].
  destruct (nearest_binding_Some _ _ _ _ _ Hnearest) as [_ Hbound].
  rewrite run_lookupStore in Hrun.
  assert (Hmodelled : (lookupOverlaidStore_body k node env s).2 ≠ None).
  { intros Hnone. by rewrite Hnone in Hrun. }
  destruct (lookupOverlaidStore_body_footprint k node env s Hmodelled Hbound)
    as (Hdefined & Hi & Hc).
  destruct (lookupOverlaidStore_body k node env s) as [s1 [[e|[|p|member]]|]];
    simpl in Hrun, Hi, Hc, Hdefined; simplify_eq; try done.
  unfold then_ in Hrun.
  destruct (settle p s1) as [[s2 r2]|] eqn:Hsettle; simpl in Hrun; simplify_eq.
  split.
  - by rewrite (settle_invocations _ _ _ _ Hsettle).
  - intros k' r0 env' Hother.
    rewrite (settle_caches _ _ _ _ k' r0 Hsettle). by apply Hc.
Qed.

Lemma lookupStore_footprint_witness :
  let s := (withParent root (registerTraceStore root "dev" (constant 1) loaded)).1 in
  let s' := state_after (lookupTraceStore child "dev") s in
  run (lookupTraceStore child "dev") s = Some (s', Resolved (Own 1))
  ∧ nearest_binding TraceStore "dev" s child = Some root
  ∧ invocations s' = [CallProvider TraceStore 0 "dev"]
  ∧ storesByEnvCache TraceStore (fields s' child) !! "dev" = None.
Proof.
  intros s s'.
  assert (Hrun : run (lookupTraceStore child "dev") s = Some (s', Resolved (Own 1)))
    by (vm_compute; reflexivity).
  assert (Hnearest : nearest_binding TraceStore "dev" s child = Some root)
    by (vm_compute; reflexivity).
  split; [exact Hrun|]. split; [exact Hnearest|].
  pose proof (lookupStore_footprint TraceStore child "dev" s s' _ Hrun) as Hfoot.
  rewrite Hnearest in Hfoot. destruct Hfoot as [Hcalls Hslots]. split.
  - rewrite Hcalls. reflexivity.
  - rewrite (Hslots TraceStore child "dev"); [reflexivity|].
    right; left. simpl. lia.
Defined.

(** ** Registrations *)

(** X5. A registration writes to the node it is made on and calls nothing:
    whichever of the five [register...] methods it is, no provider or
    initialiser is called, no promise is made, no cache slot of any node
    changes, the fields of every other node stay as they are, every closure
    there was stays as it is, and the scope is not changed. *)
Theorem registration_is_local this op s :
  invocations (register this op s) = invocations s
  ∧ promises (register this op s) = promises s
  ∧ registryAls (register this op s) = registryAls s
  ∧ global_REGISTRY (register this op s) = global_REGISTRY s
  ∧ (∀ r k, storesByEnvCache k (fields (register this op s) r)
            = storesByEnvCache k (fields s r))
  ∧ (∀ r, addr r ≠ addr this → fields (register this op s) r = fields s r)
  ∧ (∀ c cl, closures s !! c = Some cl → closures (register this op s) !! c = Some cl).
Proof.
  pose proof (register_registration this op s) as Hreg.
  pose proof Hreg as (Hi & _ & Hp & Ha & Hg & _ & Hc & _).
  split; [done|]. split; [done|]. split; [done|]. split; [done|].
  split; [done|]. split.
  - intros r Hr. by apply register_elsewhere.
  - intros c cl Hcl. by eapply registration_closures_old.
Qed.

Lemma registration_is_local_witness :
  let s := (withParent root
              (state_after (lookupTraceStore root "dev")
                 (registerTraceStore root "dev" (constant 1) loaded))).1 in
  let op := RegisterTraceStore "dev" (constant 2) in
  addr root ≠ addr child
  ∧ fields (register child op s) root = fields s root
  ∧ invocations (register child op s) = [CallProvider TraceStore 0 "dev"].
Proof.
  intros s op.
  assert (Hne : addr root ≠ addr child) by (simpl; lia).
  destruct (registration_is_local child op s) as (Hi & _ & _ & _ & _ & Helse & _).
  split; [exact Hne|]. split; [exact (Helse root Hne)|].
  rewrite Hi. reflexivity.
Defined.

(** X6. Registering an action whose key the node does not have logs the
    registration and no warning, and puts the action under the key
    [/<type>/<name>], where [lookupAction] on the node finds it; the other
    entries of the node stay. *)
Theorem registerAction_first_time this type action s :
  let key := "/" +:+ ActionType_string type +:+ "/" +:+ action_name action in
  let s2 := registerAction this type action s in
  is_Some (heap s !! addr this) →
  actionsById (fields s this) !! key = None →
  logger s2
  = logger s
      ++ [Info ("Registering " +:+ ActionType_string type +:+ ": " +:+ action_name action)]
  ∧ run (lookupAction this key) s2 = Some (s2, Resolved (Own action))
  ∧ ∀ key', key' ≠ key →
      actionsById (fields s2 this) !! key' = actionsById (fields s this) !! key'.
Proof.
  intros key s2 [t Ht] Habsent.
  assert (Hfields : fields s2 this = set_actionsById <[key:=action]> t).
  { unfold s2, registerAction. fold key.
    apply fields_set_fields_Some. by case_bool_decide. }
  assert (Hnew : actionsById (fields s2 this) !! key = Some action).
  { rewrite Hfields. simpl. apply lookup_insert_eq. }
  split; [|split].
  - unfold s2, registerAction. fold key.
    change (fields (set_logger ?f s) this) with (fields s this).
    rewrite bool_decide_eq_false_2; [done|]. rewrite Habsent. by intros [? ?].
  - by apply run_lookupAction_own.
  - intros key' Hne. rewrite Hfields. simpl. rewrite lookup_insert_ne by done.
    unfold fields. by rewrite Ht.
Qed.

Lemma registerAction_first_time_witness :
  let s2 := registerAction root flow (mkAction "menu" 1) loaded in
  is_Some (heap loaded !! addr root)
  ∧ actionsById (fields loaded root) !! "/flow/menu" = None
  ∧ logger s2 = [Info "Registering flow: menu"]
  ∧ run (lookupAction root "/flow/menu") s2
    = Some (s2, Resolved (Own (mkAction "menu" 1))).
Proof.
  intros s2.
  assert (Hroot : is_Some (heap loaded !! addr root)) by (eexists; reflexivity).
  assert (Habsent : actionsById (fields loaded root) !! "/flow/menu" = None)
    by reflexivity.
  split; [exact Hroot|]. split; [exact Habsent|].
  destruct (registerAction_first_time root flow (mkAction "menu" 1) loaded Hroot Habsent)
    as (Hlog & Hrun & _).
  split; [exact Hlog|exact Hrun].
Defined.

(** ** Keys of actions *)

Lemma split_sep_first sep s : split sep (String sep s) = "" :: split sep s.
Proof. simpl. by rewrite bool_decide_eq_true_2. Qed.

Lemma split_segment sep tok s :
  occurs sep tok = false → split sep (tok +:+ String sep s) = tok :: split sep s.
Proof.
  intros Htok. induction tok as [|c tok IH]; simpl in *.
  - by rewrite bool_decide_eq_true_2.
  - apply orb_false_iff in Htok as [Hc Htok]. rewrite Hc. by rewrite (IH Htok).
Qed.

Lemma ActionType_string_no_slash type : occurs "/" (ActionType_string type) = false.
Proof. by destruct type. Qed.

(** X7. Which registered actions send [lookupAction] to a plugin: the key
    [/<type>/<name>] under which [registerAction] files an action yields a
    plugin name exactly when the action's name has one slash, and the
    plugin name is then the part of the action's name before the slash. *)
Theorem parsePluginName_of_action_key type name :
  parsePluginName ("/" +:+ ActionType_string type +:+ "/" +:+ name)
  = match split "/" name with
    | [pluginName; _] => Some pluginName
    | _ => None
    end.
Proof.
  unfold parsePluginName.
  change ("/" +:+ ActionType_string type +:+ "/" +:+ name)
    with (String "/" (ActionType_string type +:+ String "/" name)).
  rewrite split_sep_first, split_segment by apply ActionType_string_no_slash.
  pose proof (split_nonempty "/" name) as Hne.
  destruct (split "/" name) as [|t0 [|t1 [|t2 l]]]; done.
Qed.

Lemma run_lookupAction_missing this key s :
  JsObject.get (actionsById (fields s this)) key = Undefined →
  (∀ pluginName, parsePluginName key = Some pluginName →
     JsObject.get_ordered (pluginsByName (fields s this)) pluginName = Some Undefined) →
  run (lookupAction this key) s
  = match parent this with
    | Some parent => run (lookupAction parent key) s
    | None => Some (s, Resolved Undefined)
    end.
Proof.
  intros Hmiss Hplugin.
  assert (Hrecheck : recheck this key s
                     = match parent this with
                       | Some parent => run (lookupAction parent key) s
                       | None => Some (s, Resolved Undefined)
                       end).
  { unfold recheck. by rewrite Hmiss. }
  rewrite run_lookupAction, Hmiss.
  destruct (parsePluginName key) as [pluginName|]; [|done].
  destruct (truthy pluginName); [|done].
  rewrite run_initializePlugin. unfold initializePlugin_body.
  rewrite (Hplugin pluginName eq_refl). cbn [fst snd].
  by rewrite and_then_Resolved.
Qed.

(** X8. [lookupAction] on a node on which [actionsById[key]] is undefined
    (the node has no action under the key, and the key is not the name of
    a property that objects inherit) and on which
    [pluginsByName[pluginName]] is undefined for the plugin the key
    names, is [lookupAction] on its parent, in the same state: the node's
    own [initializePlugin] finds no plugin and calls nothing, and a
    plugin of the parent is initialised by the parent's lookup. *)
Theorem lookupAction_delegates_to_parent this key s :
  JsObject.get (actionsById (fields s this)) key = Undefined →
  (∀ pluginName, parsePluginName key = Some pluginName →
     JsObject.get_ordered (pluginsByName (fields s this)) pluginName = Some Undefined) →
  run (lookupAction this key) s
  = match parent this with
    | Some parent => run (lookupAction parent key) s
    | None => Some (s, Resolved Undefined)
    end.
Proof. apply run_lookupAction_missing. Qed.

Lemma lookupAction_delegates_to_parent_witness :
  let gpt := mkAction "myplugin/gpt" 5 in
  let myplugin := mkPluginProvider "myplugin"
                    (AsyncInitializer (mkProvider [] [RegisterAction model gpt]
                                                  (Resolved 9))) in
  let s := (withParent root (registerPluginProvider root "myplugin" myplugin loaded)).1 in
  run (lookupAction child "/model/myplugin/gpt") s
  = run (lookupAction root "/model/myplugin/gpt") s
  ∧ snd <$> run (lookupAction child "/model/myplugin/gpt") s
    = Some (Resolved (Own gpt)).
Proof.
  intros gpt myplugin s.
  assert (Hmiss : JsObject.get (actionsById (fields s child)) "/model/myplugin/gpt"
                  = Undefined) by (vm_compute; reflexivity).
  assert (Hplugin : ∀ pluginName,
            parsePluginName "/model/myplugin/gpt" = Some pluginName →
            JsObject.get_ordered (pluginsByName (fields s child)) pluginName
            = Some Undefined).
  { intros pluginName Hname. vm_compute in Hname. simplify_eq.
    vm_compute. reflexivity. }
  pose proof (lookupAction_delegates_to_parent child "/model/myplugin/gpt" s
                Hmiss Hplugin) as Hrun.
  split; [exact Hrun|]. rewrite Hrun. vm_compute. reflexivity.
Defined.

(** ** Schemas, plugins and actions along the chain *)

Lemma first_truthy_Undefined {V} (get : Tables → Property V) this s :
  first_truthy get this s = Undefined
  ↔ ∀ node, node ∈ chain this → get (fields s node) = Undefined.
Proof.
  induction this as [a|a p IH] using Registry_induction;
    rewrite first_truthy_eq; simpl.
  - destruct (get (fields s (mkRegistry a None))) as [|v|member] eqn:Hget; simpl.
    + split; [|done]. by intros _ node ->%list_elem_of_singleton.
    + split; [done|]. intros Hall. rewrite <- Hget. apply Hall, list_elem_of_here.
    + split; [done|]. intros Hall. rewrite <- Hget. apply Hall, list_elem_of_here.
  - destruct (get (fields s (mkRegistry a (Some p)))) as [|v|member] eqn:Hget; simpl.
    + rewrite IH. split.
      * intros Hall node Hnode. apply elem_of_cons in Hnode as [->|Hnode]; auto.
      * intros Hall node Hnode. by apply Hall, list_elem_of_further.
    + split; [done|]. intros Hall. rewrite <- Hget. apply Hall, list_elem_of_here.
    + split; [done|]. intros Hall. rewrite <- Hget. apply Hall, list_elem_of_here.
Qed.

Lemma first_truthy_property {V} (own : Tables → option V) k this s :
  JsObject.inherited k = false →
  first_truthy (λ t, JsObject.property (own t) k) this s = first_in_chain own this s.
Proof.
  intros Hk.
  assert (Hget : ∀ o : option V, JsObject.property o k = from_option Own Undefined o).
  { intros o. unfold JsObject.property. destruct o; [done|]. by rewrite Hk. }
  induction this as [a|a p IH] using Registry_induction;
    rewrite first_truthy_eq, first_in_chain_eq, Hget; simpl;
    destruct (own (fields s (mkRegistry a _))); simpl; done.
Qed.

Lemma first_truthy_inherited {V} (own : Tables → option V) k this s :
  JsObject.inherited k = true → own (fields s this) = None →
  first_truthy (λ t, JsObject.property (own t) k) this s = Inherited k.
Proof.
  intros Hk Hown. rewrite first_truthy_eq. unfold JsObject.property.
  by rewrite Hown, Hk.
Qed.

Lemma property_Undefined {V} (own : option V) k :
  JsObject.property own k = Undefined ↔ own = None ∧ JsObject.inherited k = false.
Proof.
  unfold JsObject.property. destruct own; [by split; [|intros [? ?]]|].
  destruct (JsObject.inherited k); split; try done; by intros [? ?].
Qed.

(** A search along the chain finds nothing exactly when the name is not
    that of an inherited property and no node has it. *)
Lemma first_truthy_property_Undefined {V} (own : Tables → option V) k this s :
  first_truthy (λ t, JsObject.property (own t) k) this s = Undefined
  ↔ JsObject.inherited k = false ∧ ∀ node, node ∈ chain this → own (fields s node) = None.
Proof.
  rewrite first_truthy_Undefined. split.
  - intros Hall. split.
    + apply (property_Undefined (own (fields s this)) k), Hall.
      destruct this as [a [p|]]; apply list_elem_of_here.
    + intros node Hnode. by apply (property_Undefined _ k), Hall.
  - intros [Hk Hall] node Hnode. apply property_Undefined. auto.
Qed.

Lemma JsObject_get_ordered_intact {V} (o : list (string * V)) k :
  JsObject.own o "__proto__" = None →
  JsObject.get_ordered o k = Some (JsObject.property (JsObject.own o k) k).
Proof. unfold JsObject.get_ordered. intros ->. by destruct (JsObject.own o k). Qed.

Lemma lookupSchema_chain this name s :
  (∀ node, node ∈ chain this → schemasByName (fields s node) !! "__proto__" = None) →
  lookupSchema this name s
  = Some (first_truthy (λ t, JsObject.property (schemasByName t !! name) name) this s).
Proof.
  induction this as [a|a p IH] using Registry_induction; intros Hintact;
    rewrite lookupSchema_eq, first_truthy_eq;
    rewrite JsObject_get_client_intact by (apply Hintact, list_elem_of_here);
    unfold JsObject.get; cbn [parent mbind option_bind];
    destruct (JsObject.truthy _); try done.
  apply IH. intros node Hnode. by apply Hintact, list_elem_of_further.
Qed.

Lemma lookupPlugin_chain this name s :
  (∀ node, node ∈ chain this →
     JsObject.own (pluginsByName (fields s node)) "__proto__" = None) →
  lookupPlugin this name s
  = Some (first_truthy
            (λ t, JsObject.property (JsObject.own (pluginsByName t) name) name) this s).
Proof.
  induction this as [a|a p IH] using Registry_induction; intros Hintact;
    rewrite lookupPlugin_eq, first_truthy_eq;
    rewrite JsObject_get_ordered_intact by (apply Hintact, list_elem_of_here);
    cbn [parent mbind option_bind];
    destruct (JsObject.truthy _); try done.
  apply IH. intros node Hnode. by apply Hintact, list_elem_of_further.
Qed.

(** X9. Where no schema has been registered under [__proto__] along the
    chain, [lookupSchema] returns the first truthy [schemasByName[name]]
    from the node upwards.  For a name that is not the name of a
    property that objects inherit this is the entry of the first node
    that has the name, and undefined when no node has it; for the name
    of an inherited property it is never undefined: it is the inherited
    value when the node itself has no entry. *)
Theorem lookupSchema_nearest this name s :
  (∀ node, node ∈ chain this → schemasByName (fields s node) !! "__proto__" = None) →
  lookupSchema this name s
  = Some (first_truthy (λ t, JsObject.get (schemasByName t) name) this s)
  ∧ (JsObject.inherited name = false →
     lookupSchema this name s
     = Some (first_in_chain (λ t, schemasByName t !! name) this s))
  ∧ (lookupSchema this name s = Some Undefined
     ↔ JsObject.inherited name = false
       ∧ ∀ node, node ∈ chain this → schemasByName (fields s node) !! name = None)
  ∧ (JsObject.inherited name = true →
     schemasByName (fields s this) !! name = None →
     lookupSchema this name s = Some (Inherited name)).
Proof.
  intros Hintact. rewrite (lookupSchema_chain _ _ _ Hintact).
  split; [done|]. split; [|split].
  - intros Hname. by rewrite (first_truthy_property (λ t, schemasByName t !! name)).
  - rewrite <- (first_truthy_property_Undefined (λ t, schemasByName t !! name)).
    split; [by intros [= ->]|by intros ->].
  - intros Hname Hown.
    by rewrite (first_truthy_inherited (λ t, schemasByName t !! name)).
Qed.

Lemma lookupSchema_nearest_witness :
  let query := mkSchemaData (Some 1) None in
  let s := (withParent root (registerSchema root "Query" query loaded)).1 in
  (∀ node, node ∈ chain child → schemasByName (fields s node) !! "__proto__" = None)
  ∧ lookupSchema child "Query" s = Some (Own query)
  ∧ lookupSchema child "constructor" s = Some (Inherited "constructor").
Proof.
  intros query s.
  assert (Hintact : ∀ node, node ∈ chain child →
                      schemasByName (fields s node) !! "__proto__" = None).
  { intros node Hnode. simpl in Hnode.
    apply elem_of_cons in Hnode as [->|Hnode]; [reflexivity|].
    apply list_elem_of_singleton in Hnode as ->. reflexivity. }
  split; [exact Hintact|].
  destruct (lookupSchema_nearest child "Query" s Hintact) as (_ & Hown & _).
  destruct (lookupSchema_nearest child "constructor" s Hintact) as (_ & _ & _ & Hinh).
  split; [by rewrite Hown|]. by apply Hinh.
Defined.

(** X10. Where no plugin has been registered under [__proto__] along the
    chain, the method [lookupPlugin] returns the first truthy
    [pluginsByName[name]] from the node upwards.  For a name that is not
    the name of a property that objects inherit this is the binding of
    the first node that has the plugin, and undefined when no node has
    it; for the name of an inherited property it is never undefined: it
    is the inherited value when the node itself has no such plugin. *)
Theorem lookupPlugin_nearest this name s :
  (∀ node, node ∈ chain this →
     JsObject.own (pluginsByName (fields s node)) "__proto__" = None) →
  lookupPlugin this name s
  = Some (first_truthy
            (λ t, JsObject.property (JsObject.own (pluginsByName t) name) name) this s)
  ∧ (JsObject.inherited name = false →
     lookupPlugin this name s
     = Some (first_in_chain (λ t, JsObject.own (pluginsByName t) name) this s))
  ∧ (lookupPlugin this name s = Some Undefined
     ↔ JsObject.inherited name = false
       ∧ ∀ node, node ∈ chain this →
           JsObject.own (pluginsByName (fields s node)) name = None)
  ∧ (JsObject.inherited name = true →
     JsObject.own (pluginsByName (fields s this)) name = None →
     lookupPlugin this name s = Some (Inherited name)).
Proof.
  intros Hintact. rewrite (lookupPlugin_chain _ _ _ Hintact).
  split; [done|]. split; [|split].
  - intros Hname.
    by rewrite (first_truthy_property (λ t, JsObject.own (pluginsByName t) name)).
  - rewrite <- (first_truthy_property_Undefined
                  (λ t, JsObject.own (pluginsByName t) name)).
    split; [by intros [= ->]|by intros ->].
  - intros Hname Hown.
    by rewrite (first_truthy_inherited (λ t, JsObject.own (pluginsByName t) name)).
Qed.

Lemma lookupPlugin_nearest_witness :
  let myplugin := mkPluginProvider "myplugin" (AsyncInitializer (constant 9)) in
  let s := (withParent root (registerPluginProvider root "myplugin" myplugin loaded)).1 in
  (∀ node, node ∈ chain child →
     JsObject.own (pluginsByName (fields s node)) "__proto__" = None)
  ∧ lookupPlugin child "myplugin" s = Some (Own (mkPluginBinding "myplugin" 0))
  ∧ lookupPlugin child "toString" s = Some (Inherited "toString").
Proof.
  intros myplugin s.
  assert (Hintact : ∀ node, node ∈ chain child →
                      JsObject.own (pluginsByName (fields s node)) "__proto__" = None).
  { intros node Hnode. simpl in Hnode.
    apply elem_of_cons in Hnode as [->|Hnode]; [reflexivity|].
    apply list_elem_of_singleton in Hnode as ->. reflexivity. }
  split; [exact Hintact|].
  destruct (lookupPlugin_nearest child "myplugin" s Hintact) as (_ & Hown & _).
  destruct (lookupPlugin_nearest child "toString" s Hintact) as (_ & _ & _ & Hinh).
  split; [by rewrite Hown|]. by apply Hinh.
Defined.

(** X17. For a key from which no plugin name is inferred (it has not four
    segments, or its third segment is empty), [lookupAction] is a search
    along the chain that calls nothing and changes nothing: it returns
    the first truthy [actionsById[key]] from the node upwards.  For a key
    that is not the name of a property that objects inherit this is the
    entry of the first node that has the key, and undefined when no node
    has it; for the name of an inherited property it is the inherited
    value when the node itself has no entry. *)
Theorem lookupAction_without_plugin this key s :
  (∀ pluginName, parsePluginName key = Some pluginName → truthy pluginName = false) →
  run (lookupAction this key) s
  = Some (s, Resolved (first_truthy (λ t, JsObject.get (actionsById t) key) this s))
  ∧ (JsObject.inherited key = false →
     run (lookupAction this key) s
     = Some (s, Resolved (first_in_chain (λ t, actionsById t !! key) this s)))
  ∧ (run (lookupAction this key) s = Some (s, Resolved Undefined)
     ↔ JsObject.inherited key = false
       ∧ ∀ node, node ∈ chain this → actionsById (fields s node) !! key = None)
  ∧ (JsObject.inherited key = true →
     actionsById (fields s this) !! key = None →
     run (lookupAction this key) s = Some (s, Resolved (Inherited key))).
Proof.
  intros Hplain. rewrite (run_lookupAction_plain _ _ _ Hplain).
  split; [done|]. split; [|split].
  - intros Hkey. by rewrite (first_truthy_own actionsById).
  - unfold JsObject.get.
    rewrite <- (first_truthy_property_Undefined (λ t, actionsById t !! key)).
    split; [by intros [= ->]|by intros ->].
  - intros Hkey Hown. unfold JsObject.get.
    by rewrite (first_truthy_inherited (λ t, actionsById t !! key)).
Qed.

Lemma lookupAction_without_plugin_witness :
  let gpt := mkAction "/gpt" 1 in
  let s := registerAction root model gpt (withParent root loaded).1 in
  parsePluginName "/model//gpt" = Some ""
  ∧ run (lookupAction child "/model//gpt") s = Some (s, Resolved (Own gpt))
  ∧ run (lookupAction child "toString") s = Some (s, Resolved (Inherited "toString")).
Proof.
  intros gpt s. split; [reflexivity|].
  assert (Hplain : ∀ pluginName, parsePluginName "/model//gpt" = Some pluginName →
                                 truthy pluginName = false).
  { intros pluginName Hname. vm_compute in Hname. simplify_eq. reflexivity. }
  assert (Hnone : ∀ pluginName, parsePluginName "toString" = Some pluginName →
                                truthy pluginName = false).
  { intros pluginName Hname. vm_compute in Hname. discriminate Hname. }
  destruct (lookupAction_without_plugin child "/model//gpt" s Hplain)
    as (_ & Hown & _).
  destruct (lookupAction_without_plugin child "toString" s Hnone)
    as (_ & _ & _ & Hinh).
  split; [by rewrite Hown|]. by apply Hinh.
Defined.

(** ** New registries *)

Lemma run_lookupAction_empty this key s :
  fields s this = new_Tables →
  JsObject.inherited key = false →
  (∀ pluginName, parsePluginName key = Some pluginName →
     JsObject.inherited pluginName = false) →
  run (lookupAction this key) s
  = match parent this with
    | Some parent => run (lookupAction parent key) s
    | None => Some (s, Resolved Undefined)
    end.
Proof.
  intros Hempty Hkey Hplugin. apply run_lookupAction_missing.
  - rewrite Hempty. by apply JsObject_get_absent.
  - intros pluginName Hname. rewrite Hempty.
    apply JsObject_get_ordered_Undefined. split; [done|]. split; [done|].
    by apply Hplugin.
Qed.

Lemma run_lookupStore_empty k this env s :
  fields s this = new_Tables →
  JsObject.inherited env = false →
  run (lookupStore k this env) s
  = match parent this with
    | Some parent => run (lookupStore k parent env) s
    | None => Some (s, Resolved Undefined)
    end.
Proof.
  intros Hempty Henv. apply run_lookupStore_unbound. rewrite Hempty.
  apply JsObject_get_client_absent; [by destruct k..|done].
Qed.

Lemma lookupSchema_empty this name s :
  fields s this = new_Tables →
  JsObject.inherited name = false →
  lookupSchema this name s
  = match parent this with
    | Some parent => lookupSchema parent name s
    | None => Some Undefined
    end.
Proof.
  intros Hempty Hname. rewrite lookupSchema_eq, Hempty.
  by rewrite JsObject_get_client_absent.
Qed.

Lemma lookupPlugin_empty this name s :
  fields s this = new_Tables →
  JsObject.inherited name = false →
  lookupPlugin this name s
  = match parent this with
    | Some parent => lookupPlugin parent name s
    | None => Some Undefined
    end.
Proof.
  intros Hempty Hname. rewrite lookupPlugin_eq, Hempty.
  assert (Hget : JsObject.get_ordered (pluginsByName new_Tables) name = Some Undefined)
    by (by apply JsObject_get_ordered_Undefined).
  by rewrite Hget.
Qed.

Lemma run_initializePlugin_empty this name s :
  fields s this = new_Tables →
  JsObject.inherited name = false →
  run (initializePlugin this name) s = Some (s, Resolved None).
Proof.
  intros Hempty Hname. rewrite run_initializePlugin. unfold initializePlugin_body.
  rewrite Hempty.
  assert (Hget : JsObject.get_ordered (pluginsByName new_Tables) name = Some Undefined)
    by (by apply JsObject_get_ordered_Undefined).
  by rewrite Hget.
Qed.

Lemma run_listActions_empty this s :
  fields s this = new_Tables → parent this = None →
  run (listActions this) s = Some (s, Resolved ∅).
Proof.
  intros Hempty Hparent.
  rewrite listActions_eq, run_bind, run_read, and_then_Resolved, Hempty, Hparent.
  simpl. by rewrite Hempty.
Qed.

(** X11. A registry made by [Registry.withParent(parent)] (and so by
    [Registry.withCurrent()], which is [withParent] of the current
    registry) changes no existing node, and until something is registered
    on it, a lookup on it under a name that is not the name of a property
    that objects inherit is the lookup on its parent (for an action, when
    the plugin name of the key is no such name either); it has no plugin
    of such a name to initialise. *)
Theorem withParent_overlay_is_transparent p s :
  let s1 := (withParent p s).1 in
  let c := (withParent p s).2 in
  withCurrent s = withParent (getRegistryInstance s) s
  ∧ parent c = Some p
  ∧ (∀ r, fields s1 r = fields s r)
  ∧ (∀ key,
       JsObject.inherited key = false →
       (∀ pluginName, parsePluginName key = Some pluginName →
          JsObject.inherited pluginName = false) →
       run (lookupAction c key) s1 = run (lookupAction p key) s1)
  ∧ (∀ k env, JsObject.inherited env = false →
       run (lookupStore k c env) s1 = run (lookupStore k p env) s1)
  ∧ (∀ name, JsObject.inherited name = false →
       lookupSchema c name s1 = lookupSchema p name s1)
  ∧ (∀ name, JsObject.inherited name = false →
       lookupPlugin c name s1 = lookupPlugin p name s1)
  ∧ (∀ name, JsObject.inherited name = false →
       run (initializePlugin c name) s1 = Some (s1, Resolved None)).
Proof.
  intros s1 c.
  assert (Hempty : fields s1 c = new_Tables) by apply fields_new_Registry_fresh.
  split_and!; try done.
  - intros r. apply fields_new_Registry.
  - intros key Hkey Hplugin. by rewrite run_lookupAction_empty.
  - intros k env Henv. by rewrite run_lookupStore_empty.
  - intros name Hname. by rewrite lookupSchema_empty.
  - intros name Hname. by rewrite lookupPlugin_empty.
  - intros name Hname. by apply run_initializePlugin_empty.
Qed.

(** X12. A registry made by [new Registry()] changes no existing node and
    has nothing of its own: on it a lookup of an action, a store, a
    schema or a plugin under a name that is not the name of a property
    that objects inherit finds nothing and changes nothing (for an
    action, when the plugin name of the key is no such name either), and
    [listActions] is empty. *)
Theorem new_Registry_is_empty s :
  let s1 := (new_Registry None s).1 in
  let c := (new_Registry None s).2 in
  (∀ r, fields s1 r = fields s r)
  ∧ (∀ key,
       JsObject.inherited key = false →
       (∀ pluginName, parsePluginName key = Some pluginName →
          JsObject.inherited pluginName = false) →
       run (lookupAction c key) s1 = Some (s1, Resolved Undefined))
  ∧ (∀ k env, JsObject.inherited env = false →
       run (lookupStore k c env) s1 = Some (s1, Resolved Undefined))
  ∧ (∀ name, JsObject.inherited name = false → lookupSchema c name s1 = Some Undefined)
  ∧ (∀ name, JsObject.inherited name = false → lookupPlugin c name s1 = Some Undefined)
  ∧ (∀ name, JsObject.inherited name = false →
       run (initializePlugin c name) s1 = Some (s1, Resolved None))
  ∧ run (listActions c) s1 = Some (s1, Resolved ∅).
Proof.
  intros s1 c.
  assert (Hempty : fields s1 c = new_Tables) by apply fields_new_Registry_fresh.
  split_and!.
  - intros r. apply fields_new_Registry.
  - intros key Hkey Hplugin. by rewrite run_lookupAction_empty.
  - intros k env Henv. by rewrite run_lookupStore_empty.
  - intros name Hname. by rewrite lookupSchema_empty.
  - intros name Hname. by rewrite lookupPlugin_empty.
  - intros name Hname. by apply run_initializePlugin_empty.
  - by apply run_listActions_empty.
Qed.

Lemma inherited_truthy name : JsObject.inherited name = true → truthy name = true.
Proof.
  intros Hname. unfold truthy. apply bool_decide_eq_true_2. by intros ->.
Qed.

(** X20. On a node that has nothing of its own, a name of a property
    that objects inherit (such as [constructor] or [toString]) is not
    looked up further: [lookupAction], [lookupTraceStore],
    [lookupFlowStateStore], [lookupSchema] and [lookupPlugin] return the
    inherited value, without asking the parent; [initializePlugin] is
    rejected with a TypeError, and so is [lookupAction] of a key whose
    plugin name is such a name.  Nothing changes. *)
Theorem inherited_names_on_an_empty_node this name s :
  fields s this = new_Tables →
  JsObject.inherited name = true →
  run (lookupAction this name) s = Some (s, Resolved (Inherited name))
  ∧ (∀ k, run (lookupStore k this name) s = Some (s, Resolved (Inherited name)))
  ∧ lookupSchema this name s = Some (Inherited name)
  ∧ lookupPlugin this name s = Some (Inherited name)
  ∧ run (initializePlugin this name) s = Some (s, Rejected TypeError)
  ∧ (∀ key, JsObject.inherited key = false →
            parsePluginName key = Some name →
            run (lookupAction this key) s = Some (s, Rejected TypeError)).
Proof.
  intros Hempty Hname.
  assert (Hget : ∀ V (o : gmap string V), o = ∅ → JsObject.get o name = Inherited name).
  { intros V o ->. by apply JsObject_get_inherited. }
  assert (Hplugin : JsObject.get_ordered (pluginsByName (fields s this)) name
                    = Some (Inherited name)).
  { rewrite Hempty. unfold JsObject.get_ordered, JsObject.property. simpl.
    by rewrite Hname. }
  assert (Hinit : run (initializePlugin this name) s = Some (s, Rejected TypeError)).
  { rewrite run_initializePlugin. unfold initializePlugin_body. by rewrite Hplugin. }
  split_and!.
  - rewrite run_lookupAction. unfold recheck.
    rewrite (Hget _ (actionsById (fields s this))) by by rewrite Hempty. done.
  - intros k. rewrite run_lookupStore. unfold lookupOverlaidStore_body.
    rewrite Hempty.
    rewrite JsObject_get_client_intact by by destruct k.
    rewrite (Hget _ (storesByEnv k new_Tables)) by by destruct k.
    rewrite (Hget _ (storesByEnvCache k new_Tables)) by by destruct k.
    done.
  - rewrite lookupSchema_eq, Hempty. rewrite JsObject_get_client_intact by done.
    by rewrite (Hget _ (schemasByName new_Tables)).
  - by rewrite lookupPlugin_eq, Hplugin.
  - exact Hinit.
  - intros key Hkey Hparse. rewrite run_lookupAction, Hparse.
    rewrite JsObject_get_absent by (by rewrite ?Hempty).
    by rewrite (inherited_truthy _ Hname), Hinit.
Qed.

Lemma inherited_names_on_an_empty_node_witness :
  fields loaded root = new_Tables
  ∧ JsObject.inherited "constructor" = true
  ∧ run (lookupTraceStore root "constructor") loaded
    = Some (loaded, Resolved (Inherited "constructor"))
  ∧ run (initializePlugin root "constructor") loaded = Some (loaded, Rejected TypeError)
  ∧ run (lookupAction root "/model/constructor/x") loaded
    = Some (loaded, Rejected TypeError).
Proof.
  assert (Hempty : fields loaded root = new_Tables) by reflexivity.
  assert (Hname : JsObject.inherited "constructor" = true) by (vm_compute; reflexivity).
  split; [exact Hempty|]. split; [exact Hname|].
  destruct (inherited_names_on_an_empty_node root "constructor" loaded Hempty Hname)
    as (_ & Hstore & _ & _ & Hinit & Hkey).
  split; [exact (Hstore TraceStore)|]. split; [exact Hinit|].
  apply Hkey; vm_compute; reflexivity.
Defined.

(** ** Scopes *)

Lemma run_on_current {A} (method : Registry → Async A) s :
  run (Exported.on_current method) s = run (method (getRegistryInstance s)) s.
Proof.
  unfold Exported.on_current. by rewrite run_bind, run_read, and_then_Resolved.
Qed.

Lemma set_registryAls_back s registry :
  set_registryAls (registryAls s) (set_registryAls registry s) = s.
Proof. by destruct s. Qed.

(** X13. [runInRegistry(registry, fn)]: inside, the current registry is
    [registry], whatever the enclosing scope and the global registry are;
    when the call returns the caller's scope is back, and [fn] has changed
    the tables of no node but [registry]; what is left of [fn] to run
    later still runs in the scope of [registry] and touches the tables of
    no other node. *)
Theorem runInRegistry_scopes (fn : Script) registry s :
  let s' := (runInRegistry registry (interp fn) s).1 in
  let rest := (runInRegistry registry (interp fn) s).2 in
  runInRegistry registry (λ _, read getRegistryInstance) s = (s, Ret registry)
  ∧ registryAls s' = registryAls s
  ∧ elsewhere_untouched registry s s'
  ∧ keeps (in_scope registry) (elsewhere_untouched registry) rest.
Proof.
  intros s' rest. split.
  { unfold runInRegistry. simpl. by rewrite set_registryAls_back. }
  unfold s', rest, runInRegistry. cbv beta iota zeta.
  set (s0 := set_registryAls (Some registry) s).
  destruct (run_atomic_keeps (in_scope registry) (elsewhere_untouched registry)
              (elsewhere_untouched_refl registry) (elsewhere_untouched_trans registry)
              (interp fn registry) s0) as (Hin & Hels & Hrest);
    [apply interp_scoped|done|].
  destruct (run_atomic (interp fn registry) s0) as [s1 rest1]. simpl in *.
  split_and!; done.
Qed.

(** X14. [runInIsolatedRegistry(fn)] runs [fn] in a new registry that has
    no parent and empty tables; when the call returns the caller's scope
    is back and the five tables of every node there was before the call
    are as they were, and what is left of [fn] to run later touches the
    tables of no node but the new one. *)
Theorem runInIsolatedRegistry_isolates (fn : Script) s :
  let isolated := mkRegistry (length (heap s)) None in
  let s' := (runInIsolatedRegistry (interp fn) s).1 in
  let rest := (runInIsolatedRegistry (interp fn) s).2 in
  runInIsolatedRegistry (interp fn) s
  = runInRegistry isolated (interp fn) (new_Registry None s).1
  ∧ fields (new_Registry None s).1 isolated = new_Tables
  ∧ registryAls s' = registryAls s
  ∧ (∀ r, addr r < length (heap s) → same_tables (fields s' r) (fields s r))
  ∧ keeps (in_scope isolated) (elsewhere_untouched isolated) rest.
Proof.
  intros isolated s' rest.
  split; [done|]. split; [apply (fields_new_Registry_fresh None)|].
  unfold s', rest, runInIsolatedRegistry, runInRegistry.
  change (new_Registry None s) with (set_heap (λ h, h ++ [new_Tables]) s, isolated).
  cbv beta iota.
  set (s0 := set_registryAls (Some isolated) (set_heap (λ h, h ++ [new_Tables]) s)).
  destruct (run_atomic_keeps (in_scope isolated) (elsewhere_untouched isolated)
              (elsewhere_untouched_refl isolated) (elsewhere_untouched_trans isolated)
              (interp fn isolated) s0) as (Hin & Hels & Hrest);
    [apply interp_scoped|done|].
  destruct (run_atomic (interp fn isolated) s0) as [s1 rest1]. simpl in *.
  split; [done|]. split; [|done].
  intros r Hr. eapply same_tables_trans; [apply (Hels r); simpl; lia|].
  change (fields s0 r) with (fields (new_Registry None s).1 r).
  rewrite fields_new_Registry. apply same_tables_refl.
Qed.

(** X15. [__hardResetRegistryForTesting()] makes a new registry without
    parent and with empty tables the global one, and changes nothing else:
    every node there was keeps its fields, and the scope stays.  So
    outside every scope the exported lookups under names that are not
    names of properties that objects inherit find nothing afterwards and
    [listActions()] is empty, while inside [runInRegistry] the current
    registry is the one it was. *)
Theorem hardReset_replaces_the_global_registry s :
  let s' := Exported.__hardResetRegistryForTesting s in
  global_REGISTRY s' = mkRegistry (length (heap s)) None
  ∧ fields s' (global_REGISTRY s') = new_Tables
  ∧ (∀ r, fields s' r = fields s r)
  ∧ registryAls s' = registryAls s
  ∧ invocations s' = invocations s
  ∧ closures s' = closures s
  ∧ promises s' = promises s
  ∧ match registryAls s with
    | Some current => getRegistryInstance s' = current
    | None =>
        getRegistryInstance s' = global_REGISTRY s'
        ∧ (∀ key,
             JsObject.inherited key = false →
             (∀ pluginName, parsePluginName key = Some pluginName →
                JsObject.inherited pluginName = false) →
             run (Exported.lookupAction key) s' = Some (s', Resolved Undefined))
        ∧ (∀ env, JsObject.inherited env = false →
             run (Exported.lookupTraceStore env) s' = Some (s', Resolved Undefined))
        ∧ (∀ env, JsObject.inherited env = false →
             run (Exported.lookupFlowStateStore env) s' = Some (s', Resolved Undefined))
        ∧ (∀ name, JsObject.inherited name = false →
             Exported.lookupSchema name s' = Some Undefined)
        ∧ (∀ name, JsObject.inherited name = false →
             run (Exported.initializePlugin name) s' = Some (s', Resolved None))
        ∧ run Exported.listActions s' = Some (s', Resolved ∅)
    end.
Proof.
  intros s'.
  assert (Hempty : fields s' (global_REGISTRY s') = new_Tables)
    by apply (fields_new_Registry_fresh None).
  split_and!; try done.
  - intros r. apply (fields_new_Registry None).
  - destruct (registryAls s) as [current|] eqn:Hals.
    + unfold getRegistryInstance.
      change (registryAls s') with (registryAls s). by rewrite Hals.
    + assert (Hcur : getRegistryInstance s' = global_REGISTRY s').
      { unfold getRegistryInstance.
        change (registryAls s') with (registryAls s). by rewrite Hals. }
      split_and!; try done.
      * intros key Hkey Hplugin. unfold Exported.lookupAction.
        by rewrite run_on_current, Hcur, run_lookupAction_empty.
      * intros env Henv. unfold Exported.lookupTraceStore, lookupTraceStore.
        by rewrite run_on_current, Hcur, run_lookupStore_empty.
      * intros env Henv. unfold Exported.lookupFlowStateStore, lookupFlowStateStore.
        by rewrite run_on_current, Hcur, run_lookupStore_empty.
      * intros name Hname. unfold Exported.lookupSchema.
        by rewrite Hcur, lookupSchema_empty.
      * intros name Hname. unfold Exported.initializePlugin.
        rewrite run_on_current, Hcur. by apply run_initializePlugin_empty.
      * unfold Exported.listActions. rewrite run_on_current, Hcur.
        by apply run_listActions_empty.
Qed.

(** X16. A call made in the scope of a registry writes tables of that
    registry only, up to its first suspension, whichever node the method
    is called on: the registrations a provider or a plugin initialiser of
    another node makes when the call starts it go to the current registry,
    not to the node that holds the provider. *)
Theorem calls_register_on_the_current_registry current this (ac : AsyncCall) s :
  in_scope current s →
  let s' := (run_atomic (perform this ac) s).1 in
  in_scope current s'
  ∧ ∀ r, addr r ≠ addr current → same_tables (fields s' r) (fields s r).
Proof.
  intros Hs s'.
  destruct (run_atomic_keeps (in_scope current) (elsewhere_untouched current)
              (elsewhere_untouched_refl current) (elsewhere_untouched_trans current)
              (perform this ac) s) as (Hin & Hels & _);
    [apply perform_scoped|done|].
  split; [exact Hin|exact Hels].
Qed.

Lemma calls_register_on_the_current_registry_witness :
  let gpt := mkAction "myplugin/gpt" 5 in
  let myplugin := mkPluginProvider "myplugin"
                    (AsyncInitializer (mkProvider [RegisterAction model gpt] []
                                                  (Resolved 9))) in
  let s := set_registryAls (Some child)
             (withParent root (registerPluginProvider root "myplugin" myplugin loaded)).1 in
  let s' := (run_atomic (perform root (LookupAction "/model/myplugin/gpt")) s).1 in
  in_scope child s
  ∧ addr root ≠ addr child
  ∧ same_tables (fields s' root) (fields s root)
  ∧ actionsById (fields s' child) !! "/model/myplugin/gpt" = Some gpt.
Proof.
  intros gpt myplugin s s'.
  assert (Hs : in_scope child s) by reflexivity.
  assert (Hne : addr root ≠ addr child) by (simpl; lia).
  split; [exact Hs|]. split; [exact Hne|].
  destruct (calls_register_on_the_current_registry child root
              (LookupAction "/model/myplugin/gpt") s Hs) as [_ Helse].
  split; [exact (Helse root Hne)|]. vm_compute. reflexivity.
Defined.

(** ** A plugin registered under [__proto__] *)

Lemma JsObject_set_names {V} k (v : V) (o : list (string * V)) :
  (JsObject.set k v o).*1 = if decide (k ∈ o.*1) then o.*1 else o.*1 ++ [k].
Proof.
  induction o as [|[k' v'] o IH]; [done|].
  change (JsObject.set k v ((k', v') :: o))
    with (if bool_decide (k' = k) then (k, v) :: o
          else (k', v') :: JsObject.set k v o).
  case_bool_decide as Hk; rewrite !fmap_cons; cbn [fst].
  - subst. by rewrite decide_True by apply list_elem_of_here.
  - rewrite IH. destruct (decide (k ∈ o.*1)) as [Hin|Hout].
    + by rewrite decide_True by (by apply list_elem_of_further).
    + rewrite decide_False; [done|].
      intros [?|?]%elem_of_cons; [congruence|done].
Qed.

Lemma JsObject_keys_set___proto__ {V} (v : V) (o : list (string * V)) :
  JsObject.keys (JsObject.set "__proto__" v o) = JsObject.keys o.
Proof.
  unfold JsObject.keys, JsObject.own_names. rewrite JsObject_set_names.
  case_decide; [done|].
  rewrite filter_app, filter_cons, decide_False by (by intros []).
  by rewrite filter_nil, app_nil_r.
Qed.

(** X21. A plugin registered under the name [__proto__] is no own
    property of [pluginsByName]: [pluginsByName["__proto__"]] and
    [lookupPlugin("__proto__")] return its binding, but
    [Object.keys(pluginsByName)] is what it was before the registration
    and does not list [__proto__], so [listActions] goes through the
    names it went through before. *)
Theorem plugin_named___proto___is_not_listed this provider s :
  is_Some (heap s !! addr this) →
  let s1 := registerPluginProvider this "__proto__" provider s in
  let binding := mkPluginBinding (plugin_name provider) (length (closures s)) in
  JsObject.get_ordered (pluginsByName (fields s1 this)) "__proto__" = Some (Own binding)
  ∧ lookupPlugin this "__proto__" s1 = Some (Own binding)
  ∧ JsObject.keys (pluginsByName (fields s1 this))
    = JsObject.keys (pluginsByName (fields s this))
  ∧ "__proto__" ∉ JsObject.keys (pluginsByName (fields s1 this)).
Proof.
  intros [t Ht] s1 binding.
  assert (Hfields : pluginsByName (fields s1 this)
                    = JsObject.set "__proto__" binding (pluginsByName (fields s this))).
  { unfold s1, registerPluginProvider.
    rewrite (fields_set_fields_Some this _ _ t) by done.
    unfold fields. by rewrite Ht. }
  assert (Hget : JsObject.get_ordered (pluginsByName (fields s1 this)) "__proto__"
                 = Some (Own binding)).
  { apply JsObject_get_ordered_own. rewrite Hfields, JsObject_own_set.
    by rewrite decide_True. }
  split; [exact Hget|]. split; [by rewrite lookupPlugin_eq, Hget|].
  split; [by rewrite Hfields, JsObject_keys_set___proto__|].
  rewrite JsObject_keys_registered. by intros [_ ?].
Qed.

Lemma plugin_named___proto___is_not_listed_witness :
  let hidden := mkPluginProvider "hidden" (AsyncInitializer (constant 9)) in
  let s1 := registerPluginProvider root "__proto__" hidden loaded in
  is_Some (heap loaded !! addr root)
  ∧ lookupPlugin root "__proto__" s1 = Some (Own (mkPluginBinding "hidden" 0))
  ∧ JsObject.keys (pluginsByName (fields s1 root)) = []
  ∧ run (listActions root) s1 = Some (s1, Resolved ∅)
  ∧ invocations s1 = [].
Proof.
  intros hidden s1.
  assert (Hroot : is_Some (heap loaded !! addr root)) by (eexists; reflexivity).
  split; [exact Hroot|].
  destruct (plugin_named___proto___is_not_listed root hidden loaded Hroot)
    as (_ & Hplugin & Hkeys & _).
  split; [exact Hplugin|]. split; [etrans; [exact Hkeys|reflexivity]|].
  split; [vm_compute; reflexivity|reflexivity].
Defined.
